(** * Shader MIDI player: the wrapped post-processing stage, the mask
      history, shader selection and camera start-up

    The development follows the JavaScript sources: the GLSL helper
    functions that [createShaderMaterial] splices around a user shader
    ([crossSign], [pointInQuad], [rgb2hsl], [hsl2rgb] and the mirror block of
    the wrapped [main]), the template literal itself, the mask canvas with
    its undo history, [ShaderManager] with [handleShaderChange], and
    [VideoInputManager.startWebcam].

    Conventions.  The GLSL helpers are given over the real numbers
    ([Glsl]): the statements about the geometry and the colours are about
    exact arithmetic.  Where rounding changes an answer the helper is given
    in IEEE binary32 as well ([Float32]), the arithmetic of the shader.  The
    note-to-index product of [handleShaderChange] is computed in binary64
    ([Double]), the arithmetic of JavaScript; indices and counts are whole
    numbers.  A canvas keeps its pixels premultiplied by alpha ([written]).
    Console logging is left out.  Part I holds the definitions, Part II the
    lemmas and theorems. *)

From Stdlib Require Import Reals Lra Psatz ZArith Lia QArith Qround Qpower Bool String Machin.
From Stdlib Require Floats Uint63.
From stdpp Require Import base list gmap strings pretty.

(* ===================================================================== *)
(** * Part I: definitions *)
(* ===================================================================== *)

(** ** GLSL helpers of the wrapped fragment shader *)

Module Glsl.
Local Open Scope R_scope.

(** Comparisons of the shader, as booleans. *)
Definition Rltb (x y : R) : bool := if Rlt_dec x y then true else false.
Definition Reqb (x y : R) : bool := if Req_dec_T x y then true else false.

Record vec2 : Type := mkVec2 { vx : R; vy : R }.
Record vec3 : Type := mkVec3 { v3x : R; v3y : R; v3z : R }.

Definition vsub (a b : vec2) : vec2 := mkVec2 (vx a - vx b) (vy a - vy b).
Definition vadd (a b : vec2) : vec2 := mkVec2 (vx a + vx b) (vy a + vy b).
Definition vscale (a : vec2) (k : R) : vec2 := mkVec2 (vx a * k) (vy a * k).
Definition vec3_add_scalar (v : vec3) (m : R) : vec3 :=
  mkVec3 (v3x v + m) (v3y v + m) (v3z v + m).

(** Built-ins: [floor], [mod(x, y) = x - y * floor(x / y)], [length] and the
    two-argument [atan].  GLSL leaves [atan(0, 0)] undefined; it is 0 here. *)
Definition floor (x : R) : R := IZR (Int_part x).
Definition glsl_mod (x y : R) : R := x - y * floor (x / y).
Definition length (v : vec2) : R := sqrt (vx v * vx v + vy v * vy v).
Definition atan2 (y x : R) : R :=
  if Rltb 0 x then atan (y / x)
  else if Rltb x 0 then
    (if Rltb y 0 then atan (y / x) - PI else atan (y / x) + PI)
  else if Rltb 0 y then PI / 2
  else if Rltb y 0 then - (PI / 2)
  else 0.

(** [vec3 rgb2hsl(vec3 color)] *)
Definition rgb2hsl (color : vec3) : vec3 :=
  let r := v3x color in
  let g := v3y color in
  let b := v3z color in
  let maxc := Rmax (Rmax r g) b in
  let minc := Rmin (Rmin r g) b in
  let l := (maxc + minc) / 2.0 in
  if Reqb maxc minc then mkVec3 0.0 0.0 l
  else
    let delta := maxc - minc in
    let s :=
      if Rltb 0.5 l then delta / (2.0 - maxc - minc)
      else delta / (maxc + minc) in
    let h :=
      if Reqb r maxc then (g - b) / delta + (if Rltb g b then 6.0 else 0.0)
      else if Reqb g maxc then (b - r) / delta + 2.0
      else (r - g) / delta + 4.0 in
    mkVec3 (h / 6.0) s l.

(** [vec3 hsl2rgb(vec3 hsl)] *)
Definition hsl2rgb (hsl : vec3) : vec3 :=
  let h := v3x hsl in
  let s := v3y hsl in
  let l := v3z hsl in
  let c := (1.0 - Rabs (2.0 * l - 1.0)) * s in
  let x := c * (1.0 - Rabs (glsl_mod (h * 6.0) 2.0 - 1.0)) in
  let m := l - c / 2.0 in
  let rgb :=
    if Rltb h (1.0 / 6.0) then mkVec3 c x 0.0
    else if Rltb h (2.0 / 6.0) then mkVec3 x c 0.0
    else if Rltb h (3.0 / 6.0) then mkVec3 0.0 c x
    else if Rltb h (4.0 / 6.0) then mkVec3 0.0 x c
    else if Rltb h (5.0 / 6.0) then mkVec3 x 0.0 c
    else mkVec3 c 0.0 x in
  vec3_add_scalar rgb m.

(** [float crossSign(vec2 a, vec2 b, vec2 p)] *)
Definition crossSign (a b p : vec2) : R :=
  (vx b - vx a) * (vy p - vy a) - (vy b - vy a) * (vx p - vx a).

(** [bool pointInQuad(vec2 p, vec2 tl, vec2 tr, vec2 br, vec2 bl)] *)
Definition pointInQuad (p tl tr br bl : vec2) : bool :=
  let d1 := crossSign tl tr p in
  let d2 := crossSign tr br p in
  let d3 := crossSign br bl p in
  let d4 := crossSign bl tl p in
  let hasNeg := Rltb d1 0.0 || Rltb d2 0.0 || Rltb d3 0.0 || Rltb d4 0.0 in
  let hasPos := Rltb 0.0 d1 || Rltb 0.0 d2 || Rltb 0.0 d3 || Rltb 0.0 d4 in
  negb (hasNeg && hasPos).

(** The mirror block of the wrapped [main]: [segmentAngle] and the folded
    [angle] are the locals of the kaleidoscope branch, [mirrorRemap] is the
    whole [if (u_mirror > 0.5) { ... }] statement as a function from the
    incoming [fragCoord] to the outgoing one; [center] is
    [iResolution.xy * 0.5]. *)
(** The literal [3.14159265] is a 32-bit float in the shader: the nearest
    one, [13176795 / 2 ^ 22 = 3.14159274...], which is above pi. *)
Definition pi32 : R := 13176795 / 4194304.

Definition segmentAngle (u_mirrorSegments : R) : R :=
  pi32 * 2.0 / u_mirrorSegments.

Definition foldAngle (u_mirrorSegments : R) (centered : vec2) : R :=
  let angle := atan2 (vy centered) (vx centered) in
  let segmentAngle := segmentAngle u_mirrorSegments in
  let angle := glsl_mod angle segmentAngle in
  if Rltb (segmentAngle * 0.5) angle then segmentAngle - angle else angle.

Definition mirrorRemap (u_mirror u_mirrorSegments u_mirrorSplit : R)
    (center fragCoord : vec2) : vec2 :=
  if Rltb 0.5 u_mirror then
    let centered := vsub fragCoord center in
    let centered :=
      if Rltb 2.0 u_mirrorSegments then
        let radius := length centered in
        let angle := foldAngle u_mirrorSegments centered in
        vscale (mkVec2 (cos angle) (sin angle)) radius
      else
        let sourceShift := (u_mirrorSplit - 0.5) * vx center * 2.0 in
        let cx :=
          if Rltb 0.0 (vx centered) then - vx centered else vx centered in
        mkVec2 (cx + sourceShift) (vy centered) in
    vadd centered center
  else fragCoord.

(** Notions the statements about the quad test and the mirror need.  A
    quadrilateral is convex with a consistent winding order when no corner
    turns against the others and the area is not zero (the last conjunct is
    twice the signed area; a corner may lie on the line through its
    neighbours); a point is in the closed quadrilateral when it is a convex
    combination of the corners. *)
Definition leftTurns (tl tr br bl : vec2) : Prop :=
  0 <= crossSign tl tr br /\ 0 <= crossSign tr br bl /\
  0 <= crossSign br bl tl /\ 0 <= crossSign bl tl tr /\
  0 < crossSign tl tr br + crossSign br bl tl.
Definition rightTurns (tl tr br bl : vec2) : Prop :=
  crossSign tl tr br <= 0 /\ crossSign tr br bl <= 0 /\
  crossSign br bl tl <= 0 /\ crossSign bl tl tr <= 0 /\
  crossSign tl tr br + crossSign br bl tl < 0.
Definition convexQuad (tl tr br bl : vec2) : Prop :=
  leftTurns tl tr br bl \/ rightTurns tl tr br bl.

Definition combo (w1 w2 w3 w4 : R) (a b c d : vec2) : vec2 :=
  mkVec2 (w1 * vx a + w2 * vx b + w3 * vx c + w4 * vx d)
         (w1 * vy a + w2 * vy b + w3 * vy c + w4 * vy d).
Definition inClosedQuad (p tl tr br bl : vec2) : Prop :=
  exists w1 w2 w3 w4 : R,
    0 <= w1 /\ 0 <= w2 /\ 0 <= w3 /\ 0 <= w4 /\
    w1 + w2 + w3 + w4 = 1 /\ p = combo w1 w2 w3 w4 tl tr br bl.

Definition mixedSigns (d1 d2 d3 d4 : R) : Prop :=
  (d1 < 0 \/ d2 < 0 \/ d3 < 0 \/ d4 < 0) /\
  (0 < d1 \/ 0 < d2 \/ 0 < d3 \/ 0 < d4).

(** The claim "the folded angle lies in [0, segmentAngle / 2] where
    segmentAngle = 2 * pi / u_mirrorSegments", as stated. *)
Definition foldedWithinPi : Prop :=
  forall (u_mirrorSegments : R) (centered : vec2),
    2 < u_mirrorSegments ->
    0 <= foldAngle u_mirrorSegments centered
      <= (2 * PI / u_mirrorSegments) / 2.

Definition unit3 (c : vec3) : Prop :=
  0 <= v3x c <= 1 /\ 0 <= v3y c <= 1 /\ 0 <= v3z c <= 1.

Definition chroma (s l : R) : R := (1.0 - Rabs (2.0 * l - 1.0)) * s.
Definition dist (a b : vec2) : R := length (vsub a b).

End Glsl.

(** ** The same helpers in the shader's arithmetic

    A [float] of the shader has 32 bits ([highp] in GLSL ES), IEEE binary32
    on the graphics hardware of a desktop browser: every operation returns
    its exact result rounded to the nearest float.  [SpecFloat] of the
    Standard Library specifies these operations. *)

Module Float32.
Import SpecFloat.

(** 24 significant bits, exponents below 128. *)
Definition float32 : Type := spec_float.
Definition sub : float32 -> float32 -> float32 := SFsub 24 128.
Definition mul : float32 -> float32 -> float32 := SFmul 24 128.
Definition ltb : float32 -> float32 -> bool := SFltb.
Definition zero : float32 := S754_zero false.

Record vec2 : Type := mkVec2 { vx : float32; vy : float32 }.

(** [float crossSign(vec2 a, vec2 b, vec2 p)] *)
Definition crossSign (a b p : vec2) : float32 :=
  sub (mul (sub (vx b) (vx a)) (sub (vy p) (vy a)))
      (mul (sub (vy b) (vy a)) (sub (vx p) (vx a))).

(** [bool pointInQuad(vec2 p, vec2 tl, vec2 tr, vec2 br, vec2 bl)] *)
Definition pointInQuad (p tl tr br bl : vec2) : bool :=
  let d1 := crossSign tl tr p in
  let d2 := crossSign tr br p in
  let d3 := crossSign br bl p in
  let d4 := crossSign bl tl p in
  let hasNeg := ltb d1 zero || ltb d2 zero || ltb d3 zero || ltb d4 zero in
  let hasPos := ltb zero d1 || ltb zero d2 || ltb zero d3 || ltb zero d4 in
  negb (hasNeg && hasPos).

(** The real number a float stands for. *)
Definition valueOf (f : float32) : R :=
  match f with
  | S754_finite s m e =>
      let v := if (0 <=? e)%Z then IZR (Z.pos m * 2 ^ e)
               else (IZR (Z.pos m) / IZR (2 ^ (- e)))%R in
      if s then (- v)%R else v
  | _ => 0%R
  end.

Definition exactly (v : vec2) : Glsl.vec2 :=
  Glsl.mkVec2 (valueOf (vx v)) (valueOf (vy v)).

(** The claim "pointInQuad returns true if and only if the point is in the
    closed quadrilateral", as stated, of the test the shader computes. *)
Definition testIsExact : Prop :=
  forall p tl tr br bl : vec2,
    Glsl.convexQuad (exactly tl) (exactly tr) (exactly br) (exactly bl) ->
    (pointInQuad p tl tr br bl = true <->
     Glsl.inClosedQuad (exactly p)
       (exactly tl) (exactly tr) (exactly br) (exactly bl)).

(** A window of 1920 by 1080 pixels with the handles dragged to the pixels
    (143, 199), (1508, 4), (1569, 854) and (4, 890), and the pixel
    (622, 130): the corners [x / 1920, y / 1080] and the point [checkUV]
    of that pixel, as floats. *)
Definition tlF : vec2 :=
  mkVec2 (S754_finite false 9996425 (-27)) (S754_finite false 12365430 (-26)).
Definition trF : vec2 :=
  mkVec2 (S754_finite false 13177105 (-24)) (S754_finite false 15907286 (-32)).
Definition brF : vec2 :=
  mkVec2 (S754_finite false 13710131 (-24)) (S754_finite false 13266428 (-24)).
Definition blF : vec2 :=
  mkVec2 (S754_finite false 8947849 (-32)) (S754_finite false 13825669 (-24)).
Definition pF : vec2 :=
  mkVec2 (S754_finite false 10878976 (-25)) (S754_finite false 16217976 (-27)).

End Float32.

(** ** The renderer: wrapped shader text, mask canvas and undo history *)

Module Renderer.

(** *** The template literal of [createShaderMaterial]

    A template literal is a sequence of literal chunks and interpolated
    expressions; the only expression of this one is [fragmentShader]. *)
Inductive Chunk : Type :=
  | Lit (text : string)
  | Hole.

Fixpoint fill (template : list Chunk) (fragmentShader : string) : string :=
  match template with
  | [] => ""
  | Lit text :: rest => text +:+ fill rest fragmentShader
  | Hole :: rest => fragmentShader +:+ fill rest fragmentShader
  end.

(** Text before [${fragmentShader}]: uniform declarations and helpers. *)
Definition wrapperPrefix : string := "
            uniform float iTime;
            uniform vec2 iResolution;
            uniform float iTimeDelta;
            uniform int iFrame;

            // Global controls
            uniform float u_vibrance;
            uniform float u_hue;
            uniform float u_saturation;
            uniform float u_grayscale;
            uniform float u_contrast;
            uniform float u_brightness;
            uniform float u_zoom;
            uniform float u_speed;
            uniform float u_mirror;
            uniform float u_videoMix;
            uniform float u_audioIntensity;
            uniform float u_audioToHue;
            uniform float u_audioToSaturation;
            uniform float u_audioToBrightness;
            uniform float u_audioToZoom;
            uniform float u_mirrorSplit;
            uniform float u_mirrorSegments;

            // Perspective transform corners (normalized 0-1)
            uniform vec2 u_perspTL;  // Top-left
            uniform vec2 u_perspTR;  // Top-right
            uniform vec2 u_perspBL;  // Bottom-left
            uniform vec2 u_perspBR;  // Bottom-right
            uniform bool u_perspActive;

            // Video and audio
            uniform sampler2D u_videoTexture;
            uniform bool u_hasVideo;
            uniform float u_audioBass;
            uniform float u_audioMid;
            uniform float u_audioTreble;

            // Mask for edit mode
            uniform sampler2D u_maskTexture;
            uniform bool u_hasMask;

            // RGB to HSL conversion
            vec3 rgb2hsl(vec3 color) {
                float maxc = max(max(color.r, color.g), color.b);
                float minc = min(min(color.r, color.g), color.b);
                float l = (maxc + minc) / 2.0;

                if (maxc == minc) {
                    return vec3(0.0, 0.0, l);
                }

                float delta = maxc - minc;
                float s = l > 0.5 ? delta / (2.0 - maxc - minc) : delta / (maxc + minc);

                float h;
                if (color.r == maxc) {
                    h = (color.g - color.b) / delta + (color.g < color.b ? 6.0 : 0.0);
                } else if (color.g == maxc) {
                    h = (color.b - color.r) / delta + 2.0;
                } else {
                    h = (color.r - color.g) / delta + 4.0;
                }
                h /= 6.0;

                return vec3(h, s, l);
            }

            // HSL to RGB conversion
            vec3 hsl2rgb(vec3 hsl) {
                float h = hsl.x;
                float s = hsl.y;
                float l = hsl.z;

                float c = (1.0 - abs(2.0 * l - 1.0)) * s;
                float x = c * (1.0 - abs(mod(h * 6.0, 2.0) - 1.0));
                float m = l - c / 2.0;

                vec3 rgb;
                if (h < 1.0/6.0) rgb = vec3(c, x, 0.0);
                else if (h < 2.0/6.0) rgb = vec3(x, c, 0.0);
                else if (h < 3.0/6.0) rgb = vec3(0.0, c, x);
                else if (h < 4.0/6.0) rgb = vec3(0.0, x, c);
                else if (h < 5.0/6.0) rgb = vec3(x, 0.0, c);
                else rgb = vec3(c, 0.0, x);

                return rgb + m;
            }

            // Check if point is inside a quad using cross products
            float crossSign(vec2 a, vec2 b, vec2 p) {
                return (b.x - a.x) * (p.y - a.y) - (b.y - a.y) * (p.x - a.x);
            }

            bool pointInQuad(vec2 p, vec2 tl, vec2 tr, vec2 br, vec2 bl) {
                // Check if point is on the same side of all edges
                float d1 = crossSign(tl, tr, p);
                float d2 = crossSign(tr, br, p);
                float d3 = crossSign(br, bl, p);
                float d4 = crossSign(bl, tl, p);

                bool hasNeg = (d1 < 0.0) || (d2 < 0.0) || (d3 < 0.0) || (d4 < 0.0);
                bool hasPos = (d1 > 0.0) || (d2 > 0.0) || (d3 > 0.0) || (d4 > 0.0);

                return !(hasNeg && hasPos);
            }

            ".

(** Text after [${fragmentShader}]: the wrapping [main]. *)
Definition wrapperSuffix : string := "

            void main() {
                vec2 fragCoord = gl_FragCoord.xy;
                vec2 screenUV = fragCoord / iResolution.xy;

                // Calculate audio modulation (bass is most impactful)
                float audioMod = u_audioBass;

                // Apply zoom with audio modulation
                float dynamicZoom = u_zoom + (audioMod * u_audioToZoom * 2.0);
                vec2 center = iResolution.xy * 0.5;
                fragCoord = (fragCoord - center) / dynamicZoom + center;

                // Apply perspective transformation first
                bool outsidePerspective = false;
                if (u_perspActive) {
                    // Screen UV: (0,0) = bottom-left in WebGL, but our corners use (0,0) = top-left
                    // So we need to flip Y for the check
                    vec2 checkUV = vec2(screenUV.x, 1.0 - screenUV.y);

                    // Check if screen point is inside the perspective quad
                    if (!pointInQuad(checkUV, u_perspTL, u_perspTR, u_perspBR, u_perspBL)) {
                        outsidePerspective = true;
                    }

                    // Bilinear interpolation for perspective correction
                    // Map from screen position to texture position
                    vec2 uv = fragCoord / iResolution.xy;
                    // Flip Y to match our screen coordinate system
                    float screenY = 1.0 - uv.y;

                    // Interpolate: top edge at screenY=0, bottom edge at screenY=1
                    vec2 topInterp = mix(u_perspTL, u_perspTR, uv.x);
                    vec2 bottomInterp = mix(u_perspBL, u_perspBR, uv.x);
                    vec2 perspUV = mix(topInterp, bottomInterp, screenY);

                    // Convert back to shader coords (flip Y back)
                    perspUV.y = 1.0 - perspUV.y;

                    fragCoord = perspUV * iResolution.xy;
                }

                // Apply mirror/kaleidoscope effect (always from center)
                if (u_mirror > 0.5) {
                    // Convert to centered coordinates
                    vec2 centered = fragCoord - center;

                    if (u_mirrorSegments > 2.0) {
                        // Kaleidoscope mode: mirror in circular segments
                        float angle = atan(centered.y, centered.x);
                        float radius = length(centered);

                        // Calculate segment angle based on number of segments
                        float segmentAngle = 3.14159265 * 2.0 / u_mirrorSegments;

                        // Fold angle into first segment
                        angle = mod(angle, segmentAngle);

                        // Mirror within segment (creates kaleidoscope effect)
                        if (angle > segmentAngle * 0.5) {
                            angle = segmentAngle - angle;
                        }

                        // Convert back to cartesian
                        centered = vec2(cos(angle), sin(angle)) * radius;
                    } else {
                        // Simple mirror from center
                        // CC0 shifts the source horizontally (where to sample from)
                        float sourceShift = (u_mirrorSplit - 0.5) * center.x * 2.0;

                        // Mirror: right side shows flipped left side
                        if (centered.x > 0.0) {
                            centered.x = -centered.x;
                        }

                        // Apply source shift
                        centered.x = centered.x + sourceShift;
                    }

                    fragCoord = centered + center;
                }

                vec4 color = vec4(0.0);

                // Call the user's mainImage function with modified coordinates
                mainImage(color, fragCoord);

                vec3 finalColor = color.rgb;

                // Apply brightness with audio modulation
                float dynamicBrightness = u_brightness + (audioMod * u_audioToBrightness);
                finalColor *= dynamicBrightness;

                // Apply contrast
                finalColor = (finalColor - 0.5) * u_contrast + 0.5;

                // Apply global color transformations via HSL
                vec3 hsl = rgb2hsl(finalColor);

                // Apply hue rotation with audio modulation
                float dynamicHue = u_hue + (audioMod * u_audioToHue * 360.0);
                hsl.x = mod(hsl.x + dynamicHue / 360.0, 1.0);

                // Apply saturation adjustment with audio modulation
                float dynamicSaturation = u_saturation + (audioMod * u_audioToSaturation);
                hsl.y *= clamp(dynamicSaturation, 0.0, 2.0);

                // Apply vibrance (boost less saturated colors more)
                float satBoost = (1.0 - hsl.y) * u_vibrance;
                hsl.y = clamp(hsl.y + satBoost, 0.0, 1.0);

                finalColor = hsl2rgb(hsl);

                // Apply grayscale
                float gray = dot(finalColor, vec3(0.299, 0.587, 0.114));
                finalColor = mix(finalColor, vec3(gray), u_grayscale);

                // Mix with video texture if available
                if (u_hasVideo && u_videoMix > 0.0) {
                    vec2 videoUV = gl_FragCoord.xy / iResolution.xy;
                    videoUV.y = 1.0 - videoUV.y; // Flip Y coordinate
                    vec3 videoColor = texture2D(u_videoTexture, videoUV).rgb;
                    finalColor = mix(finalColor, videoColor, u_videoMix);
                }

                // Apply mask if active
                float maskAlpha = 1.0;
                if (u_hasMask) {
                    vec2 maskUV = gl_FragCoord.xy / iResolution.xy;
                    maskUV.y = 1.0 - maskUV.y; // Flip Y coordinate
                    maskAlpha = texture2D(u_maskTexture, maskUV).r;
                }

                // Black outside perspective area
                if (outsidePerspective) {
                    gl_FragColor = vec4(0.0, 0.0, 0.0, 1.0);
                    return;
                }

                gl_FragColor = vec4(finalColor * maskAlpha, color.a * maskAlpha);
            }
        ".

Definition wrapperTemplate : list Chunk :=
  [Lit wrapperPrefix; Hole; Lit wrapperSuffix].

Definition wrappedFragmentShader (fragmentShader : string) : string :=
  fill wrapperTemplate fragmentShader.

Definition vertexShader : string := "
            void main() {
                gl_Position = vec4(position, 1.0);
            }
        ".

(** The earlier renderer of [main.js] wraps the shader the same way, with a
    shorter prefix and suffix. *)
Definition legacyPrefix : string := "
            uniform float iTime;
            uniform vec2 iResolution;
            uniform float iTimeDelta;
            uniform int iFrame;

            // Global color controls
            uniform float u_hue;
            uniform float u_saturation;
            uniform float u_lightness;
            uniform float u_monochrome;

            // RGB to HSL conversion
            vec3 rgb2hsl(vec3 color) {
                float maxc = max(max(color.r, color.g), color.b);
                float minc = min(min(color.r, color.g), color.b);
                float l = (maxc + minc) / 2.0;

                if (maxc == minc) {
                    return vec3(0.0, 0.0, l);
                }

                float delta = maxc - minc;
                float s = l > 0.5 ? delta / (2.0 - maxc - minc) : delta / (maxc + minc);

                float h;
                if (color.r == maxc) {
                    h = (color.g - color.b) / delta + (color.g < color.b ? 6.0 : 0.0);
                } else if (color.g == maxc) {
                    h = (color.b - color.r) / delta + 2.0;
                } else {
                    h = (color.r - color.g) / delta + 4.0;
                }
                h /= 6.0;

                return vec3(h, s, l);
            }

            // HSL to RGB conversion
            vec3 hsl2rgb(vec3 hsl) {
                float h = hsl.x;
                float s = hsl.y;
                float l = hsl.z;

                float c = (1.0 - abs(2.0 * l - 1.0)) * s;
                float x = c * (1.0 - abs(mod(h * 6.0, 2.0) - 1.0));
                float m = l - c / 2.0;

                vec3 rgb;
                if (h < 1.0/6.0) rgb = vec3(c, x, 0.0);
                else if (h < 2.0/6.0) rgb = vec3(x, c, 0.0);
                else if (h < 3.0/6.0) rgb = vec3(0.0, c, x);
                else if (h < 4.0/6.0) rgb = vec3(0.0, x, c);
                else if (h < 5.0/6.0) rgb = vec3(x, 0.0, c);
                else rgb = vec3(c, 0.0, x);

                return rgb + m;
            }

            ".

Definition legacySuffix : string := "

            void main() {
                vec4 color = vec4(0.0);

                // Call the user's mainImage function
                mainImage(color, gl_FragCoord.xy);

                // Apply global color transformations
                vec3 hsl = rgb2hsl(color.rgb);

                // Apply hue rotation
                hsl.x = mod(hsl.x + u_hue / 360.0, 1.0);

                // Apply saturation adjustment
                hsl.y *= u_saturation;

                // Apply lightness adjustment
                hsl.z *= u_lightness;

                vec3 finalColor = hsl2rgb(hsl);

                // Apply monochrome effect
                float gray = dot(finalColor, vec3(0.299, 0.587, 0.114));
                finalColor = mix(finalColor, vec3(gray), u_monochrome);

                gl_FragColor = vec4(finalColor, color.a);
            }
        ".

Definition legacyTemplate : list Chunk :=
  [Lit legacyPrefix; Hole; Lit legacySuffix].

Definition legacyWrappedFragmentShader (fragmentShader : string) : string :=
  fill legacyTemplate fragmentShader.

Fixpoint holes (template : list Chunk) : nat :=
  match template with
  | [] => 0
  | Lit _ :: rest => holes rest
  | Hole :: rest => S (holes rest)
  end.

(** Number of positions of [text] at which [pat] starts. *)
Fixpoint occurrences (pat text : string) : nat :=
  match text with
  | EmptyString => if String.prefix pat EmptyString then 1 else 0
  | String _ rest =>
      (if String.prefix pat text then 1 else 0) + occurrences pat rest
  end%nat.

(** *** Mask canvas, image data and history

    The 2D context and the canvas it draws on are one object here:
    [maskCtx] is [None] when [getContext('2d')] gave [null].  A pixel buffer
    is the flat RGBA byte array that [getImageData] exposes, four entries per
    pixel, row after row. *)
Record Texture : Type := mkTexture { needsUpdate : bool }.

Record ImageData : Type :=
  mkImageData { img_width : nat; img_height : nat; data : list Z }.

Record Canvas : Type :=
  mkCanvas { width : nat; height : nat; pixels : list Z }.

Record ShaderRenderer : Type := mkShaderRenderer {
  maskCtx : option Canvas;
  maskTexture : option Texture;
  maskHistory : list ImageData;   (* oldest entry first *)
  maxHistory : nat
}.

(** [getImageData(0, 0, width, height)]: a copy of the whole canvas. *)
Definition getImageData (c : Canvas) : ImageData :=
  mkImageData (width c) (height c) (pixels c).

(** *** What a canvas keeps of a pixel

    A 2D canvas holds its pixels premultiplied by alpha, and [pixels] is
    what [getImageData] reads back from it.  A pixel written with alpha 255
    is kept as it is.  Under alpha 0 no colour is kept: the pixel reads back
    as transparent black.  Between the two the colour comes back rounded, in
    a way the HTML Standard leaves to the browser: [readBack alpha v] is the
    value read back after [v] was written under [alpha]. *)
Section Canvas2D.
Variable readBack : Z -> Z -> Z.

(** Channel [k] of a pixel written with the value [v] and with [alpha]. *)
Definition written (alpha : Z) (k : nat) (v : Z) : Z :=
  if (k =? 3)%nat then v
  else if (alpha =? 255)%Z then v
  else if (alpha =? 0)%Z then 0%Z
  else readBack alpha v.

(** [putImageData(imageData, 0, 0)]: the image is written over the top-left
    corner of the canvas, clipped to the canvas. *)
Definition putImageData (c : Canvas) (img : ImageData) : Canvas :=
  mkCanvas (width c) (height c)
    (imap (fun i old =>
             let p := (i / 4)%nat in
             let x := (p mod width c)%nat in
             let y := (p / width c)%nat in
             if (x <? img_width img)%nat && (y <? img_height img)%nat
             then
               let pixel := (4 * (y * img_width img + x))%nat in
               match data img !! (pixel + i mod 4)%nat,
                     data img !! (pixel + 3)%nat with
               | Some v, Some alpha => written alpha (i mod 4) v
               | _, _ => old
               end
             else old)
          (pixels c)).

(** [fillStyle = 'white'; fillRect(0, 0, width, height)] *)
Definition fillWhite (c : Canvas) : Canvas :=
  mkCanvas (width c) (height c) (replicate (List.length (pixels c)) 255%Z).

(** [if (this.maskTexture) this.maskTexture.needsUpdate = true] *)
Definition touchTexture (t : option Texture) : option Texture :=
  match t with
  | Some _ => Some (mkTexture true)
  | None => None
  end.

Definition saveToHistory (r : ShaderRenderer) : ShaderRenderer :=
  match maskCtx r with
  | None => r
  | Some c =>
      let imageData := getImageData c in
      let pushed := maskHistory r ++ [imageData] in            (* push *)
      let history :=
        if (maxHistory r <? List.length pushed)%nat
        then tail pushed                                        (* shift *)
        else pushed in
      mkShaderRenderer (maskCtx r) (maskTexture r) history (maxHistory r)
  end.

Definition undoMask (r : ShaderRenderer) : bool * ShaderRenderer :=
  match maskCtx r, last (maskHistory r) with
  | Some c, Some imageData =>
      (true,
       mkShaderRenderer (Some (putImageData c imageData))
         (touchTexture (maskTexture r))
         (removelast (maskHistory r))                           (* pop *)
         (maxHistory r))
  | _, _ => (false, r)
  end.

Definition clearMask (r : ShaderRenderer) : ShaderRenderer :=
  match maskCtx r with
  | None => r
  | Some _ =>
      let r1 := saveToHistory r in
      mkShaderRenderer (option_map fillWhite (maskCtx r1))
        (touchTexture (maskTexture r1)) (maskHistory r1) (maxHistory r1)
  end.

(** A store into a [Uint8ClampedArray] clamps the value to a byte. *)
Definition clamp (v : Z) : Z := Z.max 0 (Z.min 255 v).

(** [data[j] = 255 - data[j]]; outside the array the read is [undefined]
    and the store does nothing. *)
Definition invertAt (j : nat) (d : list Z) : list Z :=
  match d !! j with
  | Some v => <[j := clamp (255 - v)]> d
  | None => d
  end.

(** The body of the loop, [for (i = 0; i < data.length; i += 4)], and the
    loop itself; [data.length] rounds are more than the loop ever takes. *)
Definition invertStep (i : nat) (d : list Z) : list Z :=
  invertAt (i + 2) (invertAt (i + 1) (invertAt i d)).

Fixpoint invertFrom (fuel i : nat) (d : list Z) : list Z :=
  match fuel with
  | O => d
  | S fuel' =>
      if (i <? List.length d)%nat
      then invertFrom fuel' (i + 4) (invertStep i d)
      else d
  end.

Definition invertData (d : list Z) : list Z :=
  invertFrom (List.length d) 0 d.

Definition invertMask (r : ShaderRenderer) : ShaderRenderer :=
  match maskCtx r with
  | None => r
  | Some c =>
      let imageData := getImageData c in
      let imageData' :=
        mkImageData (img_width imageData) (img_height imageData)
          (invertData (data imageData)) in
      mkShaderRenderer (Some (putImageData c imageData'))
        (touchTexture (maskTexture r)) (maskHistory r) (maxHistory r)
  end.
End Canvas2D.

(** The constructor's mask fields: an empty history of at most ten
    entries, then [initMaskCanvas], which clears a fresh (transparent)
    canvas of the window's size before the texture exists. *)
Definition newCanvas (w h : nat) : Canvas :=
  mkCanvas w h (replicate (4 * w * h) 0%Z).

Definition newRenderer (innerWidth innerHeight : nat) (ctxAvailable : bool)
    : ShaderRenderer :=
  let r0 :=
    mkShaderRenderer
      (if ctxAvailable then Some (newCanvas innerWidth innerHeight) else None)
      None [] 10 in
  let r1 := clearMask r0 in
  mkShaderRenderer (maskCtx r1) (Some (mkTexture true))
    (maskHistory r1) (maxHistory r1).

(** Drawing.  What [fill()] does to the pixels of a path is the browser's
    business; the rasteriser is a parameter. *)
Inductive Path : Type :=
  | Arc (x y radius : Q)
  | Polygon (points : list (Q * Q)).

Section Drawing.
Variable readBack : Z -> Z -> Z.
Variable rasterFill : Canvas -> Path -> bool -> list Z.
Variables innerWidth innerHeight : Q.

Definition fillPath (c : Canvas) (p : Path) (black : bool) : Canvas :=
  mkCanvas (width c) (height c) (rasterFill c p black).

Definition toCanvas (c : Canvas) (p : Q * Q) : Q * Q :=
  ((fst p / innerWidth) * inject_Z (Z.of_nat (width c)),
   (1 - snd p / innerHeight) * inject_Z (Z.of_nat (height c)))%Q.

Definition drawOnMask (x y brushSize : Q) (erase : bool)
    (r : ShaderRenderer) : ShaderRenderer :=
  match maskCtx r with
  | None => r
  | Some c =>
      let '(canvasX, canvasY) := toCanvas c (x, y) in
      mkShaderRenderer
        (Some (fillPath c (Arc canvasX canvasY (brushSize / 2)%Q) erase))
        (touchTexture (maskTexture r)) (maskHistory r) (maxHistory r)
  end.

Definition drawPolygonOnMask (points : list (Q * Q)) (erase : bool)
    (r : ShaderRenderer) : ShaderRenderer :=
  match maskCtx r with
  | None => r
  | Some c =>
      if (List.length points <? 3)%nat then r
      else
        let canvasPoints := map (toCanvas c) points in
        mkShaderRenderer (Some (fillPath c (Polygon canvasPoints) erase))
          (touchTexture (maskTexture r)) (maskHistory r) (maxHistory r)
  end.

(** The mask operations a performer can trigger, and a run of them. *)
Inductive MaskOp : Type :=
  | OpSave
  | OpUndo
  | OpClear
  | OpInvert
  | OpDraw (x y brushSize : Q) (erase : bool)
  | OpPolygon (points : list (Q * Q)) (erase : bool).

Definition isDrawing (op : MaskOp) : bool :=
  match op with
  | OpInvert | OpDraw _ _ _ _ | OpPolygon _ _ => true
  | OpSave | OpUndo | OpClear => false
  end.

Definition runOp (r : ShaderRenderer) (op : MaskOp) : ShaderRenderer :=
  match op with
  | OpSave => saveToHistory r
  | OpUndo => snd (undoMask readBack r)
  | OpClear => clearMask r
  | OpInvert => invertMask readBack r
  | OpDraw x y brushSize erase => drawOnMask x y brushSize erase r
  | OpPolygon points erase => drawPolygonOnMask points erase r
  end.

Definition runOps (r : ShaderRenderer) (ops : list MaskOp) : ShaderRenderer :=
  fold_left runOp ops r.

(** [onResize()], the mask part of it: the canvas gets the new size of the
    window, is filled with white, and the old content is drawn over it
    scaled to the new size; the history is not touched.  How [drawImage]
    scales is the browser's business: [drawScaled imageData width height]
    is the content of the canvas afterwards. *)
Variable drawScaled : ImageData -> nat -> nat -> list Z.

End Drawing.

(** What stays of a canvas when its pixels are drawn over. *)
Definition sameCanvasSize (c c' : Canvas) : Prop :=
  width c' = width c /\ height c' = height c /\
  List.length (pixels c') = List.length (pixels c).

Definition wfCanvas (c : Canvas) : Prop :=
  List.length (pixels c) = (4 * width c * height c)%nat.

Definition isByte (v : Z) : Prop := (0 <= v <= 255)%Z.

(** What one pass of the loop stores at index [k]. *)
Definition storedChannel (k : nat) (v : Z) : Z :=
  if (k mod 4 =? 3)%nat then v else clamp (255 - v).


(** Every pixel is opaque. *)
Definition opaque (d : list Z) : Prop :=
  forall i, (i < List.length d)%nat -> (i mod 4 = 3)%nat -> d !! i = Some 255%Z.

(** The canvas holds these pixels exactly: written, they read back as they
    are.  This is so for every opaque pixel and for transparent black. *)
Definition heldExactly (readBack : Z -> Z -> Z) (d : list Z) : Prop :=
  forall i v alpha,
    d !! i = Some v -> d !! (4 * (i / 4) + 3)%nat = Some alpha ->
    written readBack alpha (i mod 4) v = v.


(** Pixel by pixel: red, green and blue become [255 - v], alpha stays. *)
Definition invertChannel (j : nat) (v : Z) : Z :=
  if (j mod 4 =? 3)%nat then v else (255 - v)%Z.

(** The claim "invertMask replaces the colour [v] of every pixel by
    [255 - v]", as stated: for every mask. *)
Definition invertsEveryPixel (readBack : Z -> Z -> Z) : Prop :=
  forall (r : ShaderRenderer) (c : Canvas),
    maskCtx r = Some c -> wfCanvas c -> Forall isByte (pixels c) ->
    exists c1,
      maskCtx (invertMask readBack r) = Some c1 /\
      pixels c1 = imap invertChannel (pixels c).

(** The claim "the body occurs exactly once in the result", as stated. *)
Definition occursExactlyOnce (s : string) : Prop :=
  occurrences s (wrappedFragmentShader s) = 1%nat.

(** A small renderer to try things on: a window of two pixels by one, and
    the same renderer after a save and a stroke of black paint. *)
Definition demoRenderer : ShaderRenderer := newRenderer 2 1 true.
Definition demoPaintedCanvas : Canvas :=
  mkCanvas 2 1 [0; 0; 0; 255; 255; 255; 255; 255]%Z.
Definition demoPainted : ShaderRenderer :=
  mkShaderRenderer (Some demoPaintedCanvas) (Some (mkTexture true))
    (maskHistory (saveToHistory demoRenderer)) 10.

(** A browser to try things on: it premultiplies and divides again, each
    time rounding to the nearest whole number, and it scales an image by
    taking for each pixel the one of the source that lies under it. *)
Definition roundingBrowser (alpha v : Z) : Z :=
  (((v * alpha + 127) / 255 * 255 + alpha / 2) / alpha)%Z.




(** *** The material built around the wrapped shader

    [createShaderMaterial] reads [globalUniforms] and [maskTexture] of the
    renderer and the window size. *)
Record GlobalUniforms : Type := mkGlobalUniforms {
  u_vibrance : R; u_hue : R; u_saturation : R; u_grayscale : R;
  u_contrast : R; u_brightness : R; u_zoom : R; u_speed : R; u_mirror : R;
  u_videoMix : R; u_audioIntensity : R; u_audioToHue : R;
  u_audioToSaturation : R; u_audioToBrightness : R; u_audioToZoom : R;
  u_mirrorSplit : R; u_mirrorSegments : R
}.

Inductive Uniform : Type :=
  | UFloat (v : R)
  | UInt (v : Z)
  | UBool (b : bool)
  | UVec2 (x y : R)
  | UMask (t : option Texture)
  | UNull.

Record ShaderMaterial : Type := mkShaderMaterial {
  mat_vertexShader : string;
  mat_fragmentShader : string;
  uniforms : list (string * Uniform)
}.

Definition createShaderMaterial (globalUniforms : GlobalUniforms)
    (maskTexture : option Texture) (innerWidth innerHeight : R)
    (fragmentShader : string) : ShaderMaterial :=
  mkShaderMaterial vertexShader (wrappedFragmentShader fragmentShader)
    [ ("iTime", UFloat 0);
      ("iResolution", UVec2 innerWidth innerHeight);
      ("iTimeDelta", UFloat 0);
      ("iFrame", UInt 0);
      ("u_vibrance", UFloat (u_vibrance globalUniforms));
      ("u_hue", UFloat (u_hue globalUniforms));
      ("u_saturation", UFloat (u_saturation globalUniforms));
      ("u_grayscale", UFloat (u_grayscale globalUniforms));
      ("u_contrast", UFloat (u_contrast globalUniforms));
      ("u_brightness", UFloat (u_brightness globalUniforms));
      ("u_zoom", UFloat (u_zoom globalUniforms));
      ("u_speed", UFloat (u_speed globalUniforms));
      ("u_mirror", UFloat (u_mirror globalUniforms));
      ("u_videoMix", UFloat (u_videoMix globalUniforms));
      ("u_audioIntensity", UFloat (u_audioIntensity globalUniforms));
      ("u_audioToHue", UFloat (u_audioToHue globalUniforms));
      ("u_audioToSaturation", UFloat (u_audioToSaturation globalUniforms));
      ("u_audioToBrightness", UFloat (u_audioToBrightness globalUniforms));
      ("u_audioToZoom", UFloat (u_audioToZoom globalUniforms));
      ("u_mirrorSplit", UFloat (u_mirrorSplit globalUniforms));
      ("u_mirrorSegments", UFloat (u_mirrorSegments globalUniforms));
      ("u_perspTL", UVec2 0.0 0.0);
      ("u_perspTR", UVec2 1.0 0.0);
      ("u_perspBL", UVec2 0.0 1.0);
      ("u_perspBR", UVec2 1.0 1.0);
      ("u_perspActive", UBool false);
      ("u_videoTexture", UNull);
      ("u_hasVideo", UBool false);
      ("u_audioBass", UFloat 0.0);
      ("u_audioMid", UFloat 0.0);
      ("u_audioTreble", UFloat 0.0);
      ("u_maskTexture", UMask maskTexture);
      ("u_hasMask", UBool false) ]%R.

End Renderer.

(** ** JavaScript numbers

    A JavaScript number is an IEEE binary64 value, and an operation returns
    its exact result rounded to the nearest such value, the one with the
    even significand when two are equally near.  [binary64 x] is that
    rounding of the exact result [x]: 53 significant bits.  The numbers
    below stay far from overflow and from the subnormal range. *)

Module Double.
Local Open Scope Q_scope.

(** The binary exponent of a positive number,
    [2 ^ ilog2 x <= x < 2 ^ (ilog2 x + 1)]. *)
Definition ilog2 (x : Q) : Z :=
  let e := (Z.log2 (Qnum x) - Z.log2 (Z.pos (Qden x)))%Z in
  if Qle_bool (2 ^ e) x then e else (e - 1)%Z.

(** The nearest whole number, the even one of two that are equally near. *)
Definition nearestEven (y : Q) : Z :=
  let f := Qfloor y in
  match Qcompare (y - inject_Z f) (1 # 2) with
  | Lt => f
  | Gt => (f + 1)%Z
  | Eq => if Z.even f then f else (f + 1)%Z
  end.

(** A positive number rounded to 53 significant bits. *)
Definition round53 (x : Q) : Q :=
  let e := (ilog2 x - 52)%Z in
  inject_Z (nearestEven (x / 2 ^ e)) * 2 ^ e.

Definition binary64 (x : Q) : Q :=
  match Qcompare x 0 with
  | Eq => 0
  | Gt => round53 x
  | Lt => - round53 (- x)
  end.

(** The largest relative error of a rounding. *)
Definition u : Q := 2 ^ (-53).

End Double.

(** ** Shader selection: [ShaderManager] and [handleShaderChange] *)

Module Shaders.

Record ShaderManager : Type := mkShaderManager {
  shaders : list string;
  currentIndex : Z;
  loadedShaders : gmap string string
}.

(** The object [getCurrentShader] returns; a field is [None] where
    JavaScript has [undefined]. *)
Record Shader : Type := mkShader {
  name : option string;
  content : option string
}.

(** [this.shaders[i]] *)
Definition shaderAt (sm : ShaderManager) (i : Z) : option string :=
  if (i <? 0)%Z then None else shaders sm !! Z.to_nat i.

Definition shaderCount (sm : ShaderManager) : Z :=
  Z.of_nat (List.length (shaders sm)).

Definition getCurrentShader (sm : ShaderManager) : option Shader :=
  if (shaderCount sm =? 0)%Z then None
  else
    let name := shaderAt sm (currentIndex sm) in
    Some (mkShader name (name ≫= fun n => loadedShaders sm !! n)).

Definition withIndex (sm : ShaderManager) (i : Z) : ShaderManager :=
  mkShaderManager (shaders sm) i (loadedShaders sm).

(** The remainder [%] of JavaScript takes the sign of the dividend. *)
Definition nextShader (sm : ShaderManager) : option Shader * ShaderManager :=
  if (shaderCount sm =? 0)%Z then (None, sm)
  else
    let sm' := withIndex sm (Z.rem (currentIndex sm + 1) (shaderCount sm)) in
    (getCurrentShader sm', sm').

Definition previousShader (sm : ShaderManager)
    : option Shader * ShaderManager :=
  if (shaderCount sm =? 0)%Z then (None, sm)
  else
    let sm' :=
      withIndex sm
        (Z.rem (currentIndex sm - 1 + shaderCount sm) (shaderCount sm)) in
    (getCurrentShader sm', sm').

Definition setShaderByIndex (index : Z) (sm : ShaderManager)
    : option Shader * ShaderManager :=
  if (0 <=? index)%Z && (index <? shaderCount sm)%Z then
    let sm' := withIndex sm index in
    (getCurrentShader sm', sm')
  else (None, sm).

(** The application around it: [loaded] is the shader last handed to
    [renderer.loadShader] and shown as the current shader. *)
Record ShaderMIDIApp : Type := mkShaderMIDIApp {
  shaderManager : ShaderManager;
  loaded : option Shader
}.

Definition loadCurrentShader (app : ShaderMIDIApp) : ShaderMIDIApp :=
  match getCurrentShader (shaderManager app) with
  | Some shader => mkShaderMIDIApp (shaderManager app) (Some shader)
  | None => app
  end.

(** [Math.floor((data / 127) * maxShaders)]: the quotient is rounded,
    then the product; [data] and [maxShaders] are whole numbers. *)
Definition shaderIndexOf (data : Q) (maxShaders : Z) : Z :=
  Qfloor
    (Double.binary64 (Double.binary64 (data / 127) * inject_Z maxShaders))%Q.

Definition handleShaderChange (action : string) (data : Q)
    (app : ShaderMIDIApp) : ShaderMIDIApp :=
  let sm := shaderManager app in
  let sm' :=
    if String.eqb action "next" then snd (nextShader sm)
    else if String.eqb action "prev" then snd (previousShader sm)
    else if String.eqb action "index" then
      let maxShaders := shaderCount sm in
      let shaderIndex := shaderIndexOf data maxShaders in
      snd (setShaderByIndex shaderIndex sm)
    else sm in
  loadCurrentShader (mkShaderMIDIApp sm' (loaded app)).

(** The same product on the binary64 numbers of the machine, and their
    values as rationals; [sameAsDouble lengths] tests, for every note and
    every list length in [lengths], that the machine's product is the one
    [binary64] gives. *)
Definition toDouble (z : Z) : PrimFloat.float :=
  PrimFloat.of_uint63 (Uint63.of_Z z).

Definition noteProduct (data maxShaders : Z) : PrimFloat.float :=
  PrimFloat.mul (PrimFloat.div (toDouble data) (toDouble 127))
    (toDouble maxShaders).

Definition valueOf (f : PrimFloat.float) : Q :=
  match FloatOps.Prim2SF f with
  | SpecFloat.S754_finite s m e =>
      ((if s then -1 else 1) * inject_Z (Z.pos m) * 2 ^ e)%Q
  | _ => 0%Q
  end.

Definition sameAsDouble (lengths : list nat) : bool :=
  forallb
    (fun L =>
       forallb
         (fun n =>
            Qeq_bool (valueOf (noteProduct (Z.of_nat n) (Z.of_nat L)))
              (Double.binary64
                 (Double.binary64 (inject_Z (Z.of_nat n) / 127)
                  * inject_Z (Z.of_nat L)))%Q)
         (seq 0 128))
    lengths.

(** [handleNoteOn(note)] of the MIDI controller. *)
Definition handleNoteOn (note : Z) (app : ShaderMIDIApp) : ShaderMIDIApp :=
  handleShaderChange "index" (inject_Z note) app.

Inductive ManagerOp : Type :=
  | OpNext
  | OpPrevious
  | OpSetIndex (index : Z).

Definition runManagerOp (sm : ShaderManager) (op : ManagerOp)
    : ShaderManager :=
  match op with
  | OpNext => snd (nextShader sm)
  | OpPrevious => snd (previousShader sm)
  | OpSetIndex index => snd (setShaderByIndex index sm)
  end.

Definition resultOf (sm : ShaderManager) (op : ManagerOp) : option Shader :=
  match op with
  | OpNext => fst (nextShader sm)
  | OpPrevious => fst (previousShader sm)
  | OpSetIndex index => fst (setShaderByIndex index sm)
  end.

(** The manager of the constructor once [loadShaderList] has filled it. *)
Definition newManager (names : list string)
    (contents : gmap string string) : ShaderManager :=
  mkShaderManager names 0 contents.

Definition indexInRange (sm : ShaderManager) : Prop :=
  (0 <= currentIndex sm < shaderCount sm)%Z.

(** An application with three shaders, none of them loaded yet. *)
Definition demoApp : ShaderMIDIApp :=
  mkShaderMIDIApp (newManager ["a.glsl"; "b.glsl"; "c.glsl"] ∅) None.



End Shaders.

(** ** Camera start-up: [VideoInputManager] *)

Module Video.

Inductive Source : Type := SrcNone | SrcCamera | SrcFile.

Record Device : Type :=
  mkDevice { deviceId : string; label : string; kind : string }.

Record DOMError : Type := mkDOMError { err_name : string; err_message : string }.

Inductive Outcome (A : Type) : Type :=
  | Resolved (a : A)
  | Rejected (e : DOMError).
Arguments Resolved {A} a.
Arguments Rejected {A} e.

(** The [video] constraints that vary: an exact device, or [facingMode]. *)
Record Constraints : Type :=
  mkConstraints { exactDeviceId : option string; facingUser : bool }.

Record Select : Type := mkSelect { options : list string; value : string }.

Record VideoElement : Type :=
  mkVideoElement { srcObject : option nat; src : string }.

Record VideoTexture : Type := mkVideoTexture { image : VideoElement }.

(** What the browser answers: the [n]-th call of [getUserMedia] resolves
    with a stream or rejects, and so does [enumerateDevices]. *)
Record Browser : Type := mkBrowser {
  getUserMedia : nat -> Constraints -> Outcome nat;
  enumerateDevices : nat -> Outcome (list Device)
}.

(** The manager's fields, and what it did to the outside: the textures
    handed to [onVideoReady], the alerts shown, and the number of calls to
    the two browser functions. *)
Record VideoInputManager : Type := mkVideoInputManager {
  videoElement : option VideoElement;
  videoTexture : option VideoTexture;
  stream : option nat;
  currentSource : Source;
  cameraSelector : option Select;
  availableDevices : list Device;
  currentDeviceId : option string;
  currentVideoFile : option string;
  delivered : list (option VideoTexture);
  alerts : list string;
  mediaRequests : nat;
  deviceQueries : nat
}.

Definition newVideoInputManager (selector : option Select)
    : VideoInputManager :=
  mkVideoInputManager None None None SrcNone selector [] None None [] [] 0 0.

Definition set_videoElement e vm :=
  mkVideoInputManager e (videoTexture vm) (stream vm) (currentSource vm)
    (cameraSelector vm) (availableDevices vm) (currentDeviceId vm)
    (currentVideoFile vm) (delivered vm) (alerts vm) (mediaRequests vm)
    (deviceQueries vm).
Definition set_videoTexture t vm :=
  mkVideoInputManager (videoElement vm) t (stream vm) (currentSource vm)
    (cameraSelector vm) (availableDevices vm) (currentDeviceId vm)
    (currentVideoFile vm) (delivered vm) (alerts vm) (mediaRequests vm)
    (deviceQueries vm).
Definition set_stream s vm :=
  mkVideoInputManager (videoElement vm) (videoTexture vm) s (currentSource vm)
    (cameraSelector vm) (availableDevices vm) (currentDeviceId vm)
    (currentVideoFile vm) (delivered vm) (alerts vm) (mediaRequests vm)
    (deviceQueries vm).
Definition set_currentSource s vm :=
  mkVideoInputManager (videoElement vm) (videoTexture vm) (stream vm) s
    (cameraSelector vm) (availableDevices vm) (currentDeviceId vm)
    (currentVideoFile vm) (delivered vm) (alerts vm) (mediaRequests vm)
    (deviceQueries vm).
Definition set_cameraSelector sel vm :=
  mkVideoInputManager (videoElement vm) (videoTexture vm) (stream vm)
    (currentSource vm) sel (availableDevices vm) (currentDeviceId vm)
    (currentVideoFile vm) (delivered vm) (alerts vm) (mediaRequests vm)
    (deviceQueries vm).
Definition set_availableDevices ds vm :=
  mkVideoInputManager (videoElement vm) (videoTexture vm) (stream vm)
    (currentSource vm) (cameraSelector vm) ds (currentDeviceId vm)
    (currentVideoFile vm) (delivered vm) (alerts vm) (mediaRequests vm)
    (deviceQueries vm).
Definition set_currentDeviceId d vm :=
  mkVideoInputManager (videoElement vm) (videoTexture vm) (stream vm)
    (currentSource vm) (cameraSelector vm) (availableDevices vm) d
    (currentVideoFile vm) (delivered vm) (alerts vm) (mediaRequests vm)
    (deviceQueries vm).
Definition set_currentVideoFile f vm :=
  mkVideoInputManager (videoElement vm) (videoTexture vm) (stream vm)
    (currentSource vm) (cameraSelector vm) (availableDevices vm)
    (currentDeviceId vm) f (delivered vm) (alerts vm) (mediaRequests vm)
    (deviceQueries vm).
(** [this.onVideoReady(texture)] *)
Definition onVideoReady t vm :=
  mkVideoInputManager (videoElement vm) (videoTexture vm) (stream vm)
    (currentSource vm) (cameraSelector vm) (availableDevices vm)
    (currentDeviceId vm) (currentVideoFile vm) (delivered vm ++ [t])
    (alerts vm) (mediaRequests vm) (deviceQueries vm).
Definition alert msg vm :=
  mkVideoInputManager (videoElement vm) (videoTexture vm) (stream vm)
    (currentSource vm) (cameraSelector vm) (availableDevices vm)
    (currentDeviceId vm) (currentVideoFile vm) (delivered vm)
    (alerts vm ++ [msg]) (mediaRequests vm) (deviceQueries vm).
Definition countMediaRequest vm :=
  mkVideoInputManager (videoElement vm) (videoTexture vm) (stream vm)
    (currentSource vm) (cameraSelector vm) (availableDevices vm)
    (currentDeviceId vm) (currentVideoFile vm) (delivered vm) (alerts vm)
    (S (mediaRequests vm)) (deviceQueries vm).
Definition countDeviceQuery vm :=
  mkVideoInputManager (videoElement vm) (videoTexture vm) (stream vm)
    (currentSource vm) (cameraSelector vm) (availableDevices vm)
    (currentDeviceId vm) (currentVideoFile vm) (delivered vm) (alerts vm)
    (mediaRequests vm) (S (deviceQueries vm)).

(** A string-or-null in a condition: [null] and the empty string are false. *)
Definition truthy (s : option string) : bool :=
  match s with
  | Some (String _ _) => true
  | _ => false
  end.

(** [this.cameraSelector.value = v] *)
Definition selectValue (v : string) (vm : VideoInputManager)
    : VideoInputManager :=
  match cameraSelector vm with
  | Some sel => set_cameraSelector (Some (mkSelect (options sel) v)) vm
  | None => vm
  end.

Definition updateCameraSelector (vm : VideoInputManager)
    : VideoInputManager :=
  match cameraSelector vm with
  | None => vm
  | Some _ =>
      let cameras :=
        match availableDevices vm with
        | [] => ["default"]
        | ds => map deviceId ds
        end in
      let chosen :=
        if truthy (currentDeviceId vm)
        then default "none" (currentDeviceId vm)
        else "none" in
      set_cameraSelector (Some (mkSelect ("none" :: cameras) chosen)) vm
  end.

Definition probeConstraints : Constraints := mkConstraints None false.

(** [updateDeviceList]: ask for permission (a rejection is only logged),
    then enumerate; if that throws, only the selector is rebuilt. *)
Definition updateDeviceList (b : Browser) (vm : VideoInputManager)
    : VideoInputManager :=
  let vm1 :=
    match getUserMedia b (mediaRequests vm) probeConstraints with
    | Resolved _ | Rejected _ => countMediaRequest vm
    end in
  match enumerateDevices b (deviceQueries vm1) with
  | Resolved devices =>
      let cams :=
        filter (fun d => String.eqb (kind d) "videoinput" = true) devices in
      updateCameraSelector (set_availableDevices cams (countDeviceQuery vm1))
  | Rejected _ => updateCameraSelector (countDeviceQuery vm1)
  end.

Definition stopCurrentVideo (vm : VideoInputManager) : VideoInputManager :=
  set_videoTexture None (set_videoElement None (set_stream None vm)).

Definition createVideoElement (vm : VideoInputManager) : VideoInputManager :=
  let vm1 :=
    match videoElement vm with
    | Some _ => stopCurrentVideo vm
    | None => vm
    end in
  set_videoElement (Some (mkVideoElement None "")) vm1.

(** The listener that [createVideoElement] registers for [loadeddata]. *)
Definition onLoadedData (vm : VideoInputManager) : VideoInputManager :=
  match videoElement vm with
  | Some e =>
      let t := mkVideoTexture e in
      onVideoReady (Some t) (set_videoTexture (Some t) vm)
  | None => vm
  end.

Definition isNotFound (error : DOMError) : bool :=
  String.eqb (err_name error) "NotFoundError"
  || String.eqb (err_name error) "DevicesNotFoundError".

Definition cameraAlert (error : DOMError) : string :=
  "Could not access camera: " +:+ err_message error +:+
  ". Please check permissions and ensure the camera is connected.".

(** The end of the [catch] block of [startWebcam]: the alert and the reset. *)
Definition resetCamera (error : DOMError) (vm : VideoInputManager)
    : VideoInputManager :=
  set_currentSource SrcNone
    (set_currentDeviceId None (selectValue "none" (alert (cameraAlert error) vm))).

(** The constraints [startWebcam] builds: the exact device when one is
    given (and then no [facingMode]), else the front-facing default. *)
Definition cameraConstraints (deviceId : option string) : Constraints :=
  if truthy deviceId then mkConstraints deviceId false
  else mkConstraints None true.

Definition startWebcam (b : Browser) (deviceId : option string)
    (vm : VideoInputManager) : VideoInputManager :=
  let constraints := cameraConstraints deviceId in
  match getUserMedia b (mediaRequests vm) constraints with
  | Resolved s =>
      let vm1 := set_stream (Some s) (countMediaRequest vm) in
      let vm2 := createVideoElement vm1 in
      set_videoElement
        (option_map (fun e => mkVideoElement (stream vm2) (src e))
           (videoElement vm2))
        vm2
  | Rejected error =>
      let vm1 := countMediaRequest vm in
      let vm2 := if isNotFound error then updateDeviceList b vm1 else vm1 in
      resetCamera error vm2
  end.

(** [handleCameraChange(deviceIdOrNone)] *)
Definition handleCameraChange (b : Browser) (deviceIdOrNone : string)
    (vm : VideoInputManager) : VideoInputManager :=
  let vm1 := set_currentVideoFile None (stopCurrentVideo vm) in
  if String.eqb deviceIdOrNone "none" then
    onVideoReady None (set_currentDeviceId None (set_currentSource SrcNone vm1))
  else if String.eqb deviceIdOrNone "default" then
    startWebcam b None
      (set_currentDeviceId None (set_currentSource SrcCamera vm1))
  else
    startWebcam b (Some deviceIdOrNone)
      (set_currentDeviceId (Some deviceIdOrNone)
         (set_currentSource SrcCamera vm1)).

(** Fields that neither the selector nor the device list touch. *)
Definition sameSession (vm vm' : VideoInputManager) : Prop :=
  videoElement vm' = videoElement vm /\ videoTexture vm' = videoTexture vm /\
  stream vm' = stream vm /\ currentSource vm' = currentSource vm /\
  currentDeviceId vm' = currentDeviceId vm /\
  currentVideoFile vm' = currentVideoFile vm /\
  delivered vm' = delivered vm /\ alerts vm' = alerts vm.

(** The disabled state the camera is left in. *)
Definition cameraDisabled (vm : VideoInputManager) : Prop :=
  currentDeviceId vm = None /\ currentSource vm = SrcNone /\
  (forall sel, cameraSelector vm = Some sel -> value sel = "none").

(** "No other error path beyond this reset", read as: whenever the request
    is rejected, [startWebcam] does the reset and nothing else. *)
Definition onlyResetOnRejection : Prop :=
  forall (b : Browser) (deviceId : option string) (vm : VideoInputManager)
         (error : DOMError),
    getUserMedia b (mediaRequests vm) (cameraConstraints deviceId)
      = Rejected error ->
    startWebcam b deviceId vm = resetCamera error (countMediaRequest vm).

(** A browser without a camera at first: every request is rejected with
    [NotFoundError], and the device list then shows one camera. *)
Definition notFound : DOMError :=
  mkDOMError "NotFoundError" "Requested device not found".

Definition lateCamera : Device := mkDevice "cam-1" "USB Camera" "videoinput".

Definition browserWithoutCamera : Browser :=
  mkBrowser (fun _ _ => Rejected notFound) (fun _ => Resolved [lateCamera]).

Definition freshManager : VideoInputManager :=
  newVideoInputManager (Some (mkSelect ["none"; "default"] "none")).

End Video.

(* ===================================================================== *)
(** * Part II: lemmas and theorems *)
(* ===================================================================== *)

(** ** The GLSL helpers *)

Module GlslFacts.
Import Glsl.
Local Open Scope R_scope.

(** Decimal literals are rationals injected into the reals; [field] wants
    them as quotients of integers. *)
Ltac undec := unfold Q2R in *; cbn [Qnum Qden] in *.

Lemma Rltb_true x y : Rltb x y = true <-> x < y.
Proof. unfold Rltb; destruct (Rlt_dec x y); split; intros; auto; discriminate. Qed.

Lemma Rltb_false x y : Rltb x y = false <-> y <= x.
Proof.
  unfold Rltb; destruct (Rlt_dec x y); split; intros; auto;
    try discriminate; lra.
Qed.

Lemma Rltb_yes x y : x < y -> Rltb x y = true.
Proof. apply Rltb_true. Qed.

Lemma Rltb_no x y : y <= x -> Rltb x y = false.
Proof. apply Rltb_false. Qed.

Lemma Reqb_true x y : Reqb x y = true <-> x = y.
Proof. unfold Reqb; destruct (Req_dec_T x y); split; intros; auto; discriminate. Qed.

Lemma Reqb_false x y : Reqb x y = false <-> x <> y.
Proof.
  unfold Reqb; destruct (Req_dec_T x y); split; intros; auto;
    try discriminate; contradiction.
Qed.

Lemma vec2_eq p q : vx p = vx q -> vy p = vy q -> p = q.
Proof. destruct p, q; simpl; intros; subst; reflexivity. Qed.

Lemma div_nonneg a b : 0 <= a -> 0 < b -> 0 <= a / b.
Proof.
  intros Ha Hb. unfold Rdiv. apply Rmult_le_pos; [assumption|].
  left. apply Rinv_0_lt_compat; assumption.
Qed.

(** *** The quad test *)

Lemma pointInQuad_sides p tl tr br bl :
  pointInQuad p tl tr br bl = true <->
  (0 <= crossSign tl tr p /\ 0 <= crossSign tr br p /\
   0 <= crossSign br bl p /\ 0 <= crossSign bl tl p) \/
  (crossSign tl tr p <= 0 /\ crossSign tr br p <= 0 /\
   crossSign br bl p <= 0 /\ crossSign bl tl p <= 0).
Proof.
  unfold pointInQuad; cbv zeta.
  rewrite negb_true_iff, andb_false_iff, !orb_false_iff, !Rltb_false.
  split; intros [H | H]; [left | right | left | right]; lra.
Qed.

Lemma pointInQuad_signs p tl tr br bl :
  pointInQuad p tl tr br bl = true <->
  ~ mixedSigns (crossSign tl tr p) (crossSign tr br p)
               (crossSign br bl p) (crossSign bl tl p).
Proof.
  rewrite pointInQuad_sides. unfold mixedSigns.
  generalize (crossSign tl tr p) (crossSign tr br p)
             (crossSign br bl p) (crossSign bl tl p).
  intros d1 d2 d3 d4. split.
  - intros [H | H] [Hn Hp]; lra.
  - intros H.
    destruct (Rlt_dec d1 0); destruct (Rlt_dec d2 0);
    destruct (Rlt_dec d3 0); destruct (Rlt_dec d4 0);
    try (left; lra);
    right; repeat split; apply Rnot_lt_le; intro; apply H; split; auto.
Qed.

(** [crossSign a b] is affine in its last argument. *)
Lemma crossSign_combo a b w1 w2 w3 w4 c1 c2 c3 c4 :
  w1 + w2 + w3 + w4 = 1 ->
  crossSign a b (combo w1 w2 w3 w4 c1 c2 c3 c4) =
  w1 * crossSign a b c1 + w2 * crossSign a b c2 +
  w3 * crossSign a b c3 + w4 * crossSign a b c4.
Proof.
  intros H. unfold crossSign, combo; simpl.
  replace w4 with (1 - w1 - w2 - w3) by lra. ring.
Qed.

Lemma crossSign_self_l a b : crossSign a b a = 0.
Proof. unfold crossSign; ring. Qed.

Lemma crossSign_self_r a b : crossSign a b b = 0.
Proof. unfold crossSign; ring. Qed.

Lemma crossSign_rot a b c : crossSign a b c = crossSign b c a.
Proof. unfold crossSign; ring. Qed.

Lemma crossSign_swap a b p : crossSign b a p = - crossSign a b p.
Proof. unfold crossSign; ring. Qed.

(** The four edge values add up to twice the signed area, wherever [p] is. *)
Lemma crossSign_area p tl tr br bl :
  crossSign tl tr p + crossSign tr br p + crossSign br bl p + crossSign bl tl p =
  crossSign tl tr br + crossSign br bl tl.
Proof. unfold crossSign; ring. Qed.

(** Barycentric coordinates in a triangle that is not flat. *)
Lemma triangle_combo a b c p :
  crossSign a b c <> 0 ->
  let T := crossSign a b c in
  vx p = crossSign b c p / T * vx a + crossSign c a p / T * vx b +
         crossSign a b p / T * vx c /\
  vy p = crossSign b c p / T * vy a + crossSign c a p / T * vy b +
         crossSign a b p / T * vy c /\
  crossSign b c p / T + crossSign c a p / T + crossSign a b p / T = 1.
Proof.
  intros HT T. subst T. unfold crossSign in *. repeat split; field; exact HT.
Qed.

(** Around a triangle the three edge values add up to its doubled area. *)
Lemma crossSign_triangle a b c p :
  crossSign a b p + crossSign b c p + crossSign c a p = crossSign a b c.
Proof. unfold crossSign; ring. Qed.

Lemma in_quad_upper p tl tr br bl :
  0 < crossSign tl tr br ->
  0 <= crossSign tl tr p -> 0 <= crossSign tr br p -> 0 <= crossSign br tl p ->
  inClosedQuad p tl tr br bl.
Proof.
  intros T H1 H2 Hd.
  destruct (triangle_combo tl tr br p) as (Ex & Ey & Es); [lra|].
  exists (crossSign tr br p / crossSign tl tr br),
         (crossSign br tl p / crossSign tl tr br),
         (crossSign tl tr p / crossSign tl tr br), 0.
  repeat split; try lra; try (apply div_nonneg; lra).
  apply vec2_eq; simpl; lra.
Qed.

Lemma in_quad_lower p tl tr br bl :
  0 < crossSign tl br bl ->
  0 <= crossSign br bl p -> 0 <= crossSign bl tl p -> 0 <= crossSign tl br p ->
  inClosedQuad p tl tr br bl.
Proof.
  intros T H3 H4 Hd.
  destruct (triangle_combo tl br bl p) as (Ex & Ey & Es); [lra|].
  exists (crossSign br bl p / crossSign tl br bl), 0,
         (crossSign bl tl p / crossSign tl br bl),
         (crossSign tl br p / crossSign tl br bl).
  repeat split; try lra; try (apply div_nonneg; lra).
  apply vec2_eq; simpl; lra.
Qed.

(** The diagonal from [tl] to [br] cuts the quadrilateral in two triangles,
    at least one of them with an area; [p] is in one that has. *)
Lemma in_quad_of_leftTurns p tl tr br bl :
  leftTurns tl tr br bl ->
  0 <= crossSign tl tr p -> 0 <= crossSign tr br p ->
  0 <= crossSign br bl p -> 0 <= crossSign bl tl p ->
  inClosedQuad p tl tr br bl.
Proof.
  intros (T1 & T2 & T3 & T4 & A) H1 H2 H3 H4.
  pose proof (crossSign_triangle tl tr br p) as U.
  pose proof (crossSign_triangle tl br bl p) as L.
  pose proof (crossSign_swap tl br p) as D.
  assert (TT : crossSign tl br bl = crossSign br bl tl)
    by (unfold crossSign; ring).
  destruct (Rlt_dec 0 (crossSign tl tr br)) as [Tu | Tu].
  - destruct (Rle_dec 0 (crossSign br tl p)) as [Hd | Hd].
    + apply in_quad_upper; assumption.
    + apply in_quad_lower; try assumption; lra.
  - apply in_quad_lower; try assumption; lra.
Qed.

Lemma in_quad_side p tl tr br bl e1 e2 :
  inClosedQuad p tl tr br bl ->
  0 <= crossSign e1 e2 tl -> 0 <= crossSign e1 e2 tr ->
  0 <= crossSign e1 e2 br -> 0 <= crossSign e1 e2 bl ->
  0 <= crossSign e1 e2 p.
Proof.
  intros (w1 & w2 & w3 & w4 & W1 & W2 & W3 & W4 & Hs & ->) H1 H2 H3 H4.
  rewrite crossSign_combo by assumption.
  repeat apply Rplus_le_le_0_compat; apply Rmult_le_pos; assumption.
Qed.

Lemma pointInQuad_leftTurns p tl tr br bl :
  leftTurns tl tr br bl ->
  (pointInQuad p tl tr br bl = true <-> inClosedQuad p tl tr br bl).
Proof.
  intros HL. pose proof HL as (T1 & T2 & T3 & T4 & A).
  rewrite pointInQuad_sides. split.
  - intros [(H1 & H2 & H3 & H4) | (H1 & H2 & H3 & H4)].
    + apply in_quad_of_leftTurns; assumption.
    + exfalso. pose proof (crossSign_area p tl tr br bl). lra.
  - intros Hin. left.
    pose proof (crossSign_rot tl tr br). pose proof (crossSign_rot tr br bl).
    pose proof (crossSign_rot br bl tl). pose proof (crossSign_rot bl tl tr).
    repeat split; apply (in_quad_side p tl tr br bl); try assumption;
      rewrite ?crossSign_self_l, ?crossSign_self_r; lra.
Qed.

Lemma pointInQuad_reverse p tl tr br bl :
  pointInQuad p bl br tr tl = pointInQuad p tl tr br bl.
Proof.
  apply eq_true_iff_eq. rewrite !pointInQuad_sides.
  rewrite (crossSign_swap br bl), (crossSign_swap tr br),
          (crossSign_swap tl tr), (crossSign_swap bl tl).
  split; intros [H | H]; [right | left | right | left]; lra.
Qed.

Lemma inClosedQuad_reverse p tl tr br bl :
  inClosedQuad p bl br tr tl <-> inClosedQuad p tl tr br bl.
Proof.
  split; intros (w1 & w2 & w3 & w4 & W1 & W2 & W3 & W4 & Hs & ->);
    exists w4, w3, w2, w1; repeat split; try assumption; try lra;
    apply vec2_eq; simpl; ring.
Qed.

Lemma rightTurns_reverse tl tr br bl :
  rightTurns tl tr br bl -> leftTurns bl br tr tl.
Proof.
  unfold rightTurns, leftTurns, crossSign. intros (T1 & T2 & T3 & T4 & A).
  repeat split; lra.
Qed.

Lemma pointInQuad_convex p tl tr br bl :
  convexQuad tl tr br bl ->
  (pointInQuad p tl tr br bl = true <-> inClosedQuad p tl tr br bl).
Proof.
  intros [HL | HR].
  - apply pointInQuad_leftTurns; assumption.
  - rewrite <- pointInQuad_reverse, <- inClosedQuad_reverse.
    apply pointInQuad_leftTurns, rightTurns_reverse; assumption.
Qed.

(** C1, amended.  Over exact real arithmetic: for a convex quadrilateral
    whose corners [tl], [tr], [br], [bl] come in a consistent winding order
    (either one), and every point [p], [pointInQuad p tl tr br bl] is true
    exactly when [p] lies in the closed quadrilateral; and [p] lies in the
    closed quadrilateral exactly when the four edge values [crossSign] do
    not hold both a strictly negative and a strictly positive one. *)
Theorem pointInQuad_iff_inside (p tl tr br bl : vec2) :
  convexQuad tl tr br bl ->
  (pointInQuad p tl tr br bl = true <-> inClosedQuad p tl tr br bl) /\
  (inClosedQuad p tl tr br bl <->
   ~ mixedSigns (crossSign tl tr p) (crossSign tr br p)
                (crossSign br bl p) (crossSign bl tl p)).
Proof.
  intros Hc. split.
  - apply pointInQuad_convex; assumption.
  - rewrite <- pointInQuad_signs. symmetry. apply pointInQuad_convex; assumption.
Qed.

(** On the unit square: the centre passes the test, a point to the right
    of it does not. *)
Example pointInQuad_centre :
  pointInQuad (mkVec2 (1 / 2) (1 / 2))
    (mkVec2 0 0) (mkVec2 1 0) (mkVec2 1 1) (mkVec2 0 1) = true.
Proof.
  apply pointInQuad_sides. unfold crossSign. cbn [vx vy]. left. lra.
Qed.

Example pointInQuad_outside :
  pointInQuad (mkVec2 2 (1 / 2))
    (mkVec2 0 0) (mkVec2 1 0) (mkVec2 1 1) (mkVec2 0 1) = false.
Proof.
  apply not_true_is_false. rewrite pointInQuad_sides.
  unfold crossSign. cbn [vx vy]. lra.
Qed.

Lemma pointInQuad_iff_inside_witness :
  convexQuad (mkVec2 0 0) (mkVec2 1 0) (mkVec2 1 1) (mkVec2 0 1) /\
  (pointInQuad (mkVec2 (1 / 2) (1 / 2))
     (mkVec2 0 0) (mkVec2 1 0) (mkVec2 1 1) (mkVec2 0 1) = true <->
   inClosedQuad (mkVec2 (1 / 2) (1 / 2))
     (mkVec2 0 0) (mkVec2 1 0) (mkVec2 1 1) (mkVec2 0 1)).
Proof.
  assert (H : convexQuad (mkVec2 0 0) (mkVec2 1 0) (mkVec2 1 1) (mkVec2 0 1)).
  { left. unfold leftTurns, crossSign. cbn [vx vy]. repeat split; lra. }
  split; [exact H|].
  exact (proj1 (pointInQuad_iff_inside (mkVec2 (1 / 2) (1 / 2)) _ _ _ _ H)).
Defined.

(** C1 as stated does not hold of the test the shader computes.  In the
    window of [Float32.tlF] the pixel (622, 130) lies above the upper edge
    of the quadrilateral, outside; the first edge value is negative, about
    [-2.7e-10], and the other three are positive.  In floats the two
    products of the first edge value round to the same number, the value
    is 0, and the test says inside. *)
Lemma pointInQuad_accepts_outside :
  Float32.crossSign Float32.tlF Float32.trF Float32.pF = Float32.zero /\
  Float32.pointInQuad Float32.pF Float32.tlF Float32.trF Float32.brF
    Float32.blF = true /\
  convexQuad (Float32.exactly Float32.tlF) (Float32.exactly Float32.trF)
    (Float32.exactly Float32.brF) (Float32.exactly Float32.blF) /\
  crossSign (Float32.exactly Float32.tlF) (Float32.exactly Float32.trF)
    (Float32.exactly Float32.pF) < 0 /\
  ~ inClosedQuad (Float32.exactly Float32.pF)
      (Float32.exactly Float32.tlF) (Float32.exactly Float32.trF)
      (Float32.exactly Float32.brF) (Float32.exactly Float32.blF) /\
  ~ Float32.testIsExact.
Proof.
  assert (H0 : Float32.crossSign Float32.tlF Float32.trF Float32.pF
               = Float32.zero) by (vm_compute; reflexivity).
  assert (H1 : Float32.pointInQuad Float32.pF Float32.tlF Float32.trF
                 Float32.brF Float32.blF = true) by (vm_compute; reflexivity).
  set (tl := Float32.exactly Float32.tlF). set (tr := Float32.exactly Float32.trF).
  set (br := Float32.exactly Float32.brF). set (bl := Float32.exactly Float32.blF).
  set (p := Float32.exactly Float32.pF).
  assert (H2 : convexQuad tl tr br bl /\
               crossSign tl tr p < 0 /\ 0 < crossSign tr br p).
  { unfold tl, tr, br, bl, p, Float32.exactly, Float32.valueOf.
    cbn [Float32.vx Float32.vy Float32.tlF Float32.trF Float32.brF
         Float32.blF Float32.pF Z.leb Z.compare].
    repeat match goal with
           | |- context [IZR (2 ^ ?e)] =>
               let v := eval vm_compute in (2 ^ e)%Z in
               change (2 ^ e)%Z with v
           end.
    split; [left; unfold leftTurns|]; unfold crossSign; cbn [vx vy];
      repeat split; lra. }
  destruct H2 as (Hconvex & Hneg & Hpos).
  assert (Hout : ~ inClosedQuad p tl tr br bl).
  { intros Hin. apply (pointInQuad_convex p tl tr br bl Hconvex) in Hin.
    apply pointInQuad_signs in Hin. apply Hin. unfold mixedSigns.
    split; [left; exact Hneg | right; left; exact Hpos]. }
  repeat split; try assumption.
  intros H. apply Hout. apply (H _ _ _ _ _ Hconvex). exact H1.
Qed.

(** *** The HSL conversions *)

Lemma floor_eq x k : IZR k <= x < IZR k + 1 -> floor x = IZR k.
Proof.
  intros [H1 H2]. unfold floor. f_equal. symmetry. apply Int_part_spec. lra.
Qed.

Lemma floor_bounds x : floor x <= x < floor x + 1.
Proof. unfold floor. pose proof (base_Int_part x). lra. Qed.

Lemma glsl_mod_2 x k :
  2 * IZR k <= x < 2 * IZR k + 2 -> glsl_mod x 2.0 = x - 2 * IZR k.
Proof.
  intros H. unfold glsl_mod. rewrite (floor_eq (x / 2.0) k); lra.
Qed.

(** [hsl2rgb] on each sixth of the hue circle; [h6] is the hue times six. *)
Ltac sextant h6 s l k :=
  unfold hsl2rgb, vec3_add_scalar; cbn [v3x v3y v3z];
  match goal with
  | |- context [glsl_mod ?a 2.0] =>
      replace a with h6 by lra; rewrite (glsl_mod_2 h6 k) by (simpl; lra)
  end;
  fold (chroma s l);
  repeat (first [ rewrite Rltb_yes by lra | rewrite Rltb_no by lra ]);
  cbn [v3x v3y v3z].

Lemma hsl2rgb_sextant0 h6 s l :
  0 <= h6 < 1 ->
  hsl2rgb (mkVec3 (h6 / 6.0) s l) =
  mkVec3 (chroma s l + (l - chroma s l / 2))
         (chroma s l * h6 + (l - chroma s l / 2))
         (l - chroma s l / 2).
Proof.
  intros H. sextant h6 s l 0%Z.
  rewrite Rabs_left1 by (simpl; lra). f_equal; simpl; lra.
Qed.

Lemma hsl2rgb_sextant1 h6 s l :
  1 <= h6 < 2 ->
  hsl2rgb (mkVec3 (h6 / 6.0) s l) =
  mkVec3 (chroma s l * (2 - h6) + (l - chroma s l / 2))
         (chroma s l + (l - chroma s l / 2))
         (l - chroma s l / 2).
Proof.
  intros H. sextant h6 s l 0%Z.
  rewrite Rabs_pos_eq by (simpl; lra). f_equal; simpl; lra.
Qed.

Lemma hsl2rgb_sextant2 h6 s l :
  2 <= h6 < 3 ->
  hsl2rgb (mkVec3 (h6 / 6.0) s l) =
  mkVec3 (l - chroma s l / 2)
         (chroma s l + (l - chroma s l / 2))
         (chroma s l * (h6 - 2) + (l - chroma s l / 2)).
Proof.
  intros H. sextant h6 s l 1%Z.
  rewrite Rabs_left1 by (simpl; lra). f_equal; simpl; lra.
Qed.

Lemma hsl2rgb_sextant3 h6 s l :
  3 <= h6 < 4 ->
  hsl2rgb (mkVec3 (h6 / 6.0) s l) =
  mkVec3 (l - chroma s l / 2)
         (chroma s l * (4 - h6) + (l - chroma s l / 2))
         (chroma s l + (l - chroma s l / 2)).
Proof.
  intros H. sextant h6 s l 1%Z.
  rewrite Rabs_pos_eq by (simpl; lra). f_equal; simpl; lra.
Qed.

Lemma hsl2rgb_sextant4 h6 s l :
  4 <= h6 < 5 ->
  hsl2rgb (mkVec3 (h6 / 6.0) s l) =
  mkVec3 (chroma s l * (h6 - 4) + (l - chroma s l / 2))
         (l - chroma s l / 2)
         (chroma s l + (l - chroma s l / 2)).
Proof.
  intros H. sextant h6 s l 2%Z.
  rewrite Rabs_left1 by (simpl; lra). f_equal; simpl; lra.
Qed.

Lemma hsl2rgb_sextant5 h6 s l :
  5 <= h6 < 6 ->
  hsl2rgb (mkVec3 (h6 / 6.0) s l) =
  mkVec3 (chroma s l + (l - chroma s l / 2))
         (l - chroma s l / 2)
         (chroma s l * (6 - h6) + (l - chroma s l / 2)).
Proof.
  intros H. sextant h6 s l 2%Z.
  rewrite Rabs_pos_eq by (simpl; lra). f_equal; simpl; lra.
Qed.

(** The chroma that [hsl2rgb] recovers from the saturation and lightness of
    [rgb2hsl] is the spread [M - m] of the colour. *)
Lemma chroma_delta M m :
  0 <= m -> m < M -> M <= 1 ->
  chroma (if Rltb 0.5 ((M + m) / 2.0) then (M - m) / (2.0 - M - m)
          else (M - m) / (M + m))
         ((M + m) / 2.0) = M - m.
Proof.
  intros H0 H1 H2. unfold chroma.
  destruct (Rlt_dec 0.5 ((M + m) / 2.0)) as [Hl | Hl].
  - rewrite Rltb_yes by assumption.
    rewrite Rabs_pos_eq by lra. undec. field. lra.
  - rewrite Rltb_no by lra.
    rewrite Rabs_left1 by lra. undec. field. lra.
Qed.

Lemma ratio_bounds a d : 0 < d -> - d <= a <= d -> -1 <= a / d <= 1.
Proof.
  intros Hd [H1 H2]. split.
  - apply Rmult_le_reg_r with d; [assumption|].
    unfold Rdiv. rewrite Rmult_assoc, Rinv_l by lra. lra.
  - apply Rmult_le_reg_r with d; [assumption|].
    unfold Rdiv. rewrite Rmult_assoc, Rinv_l by lra. lra.
Qed.

Lemma ratio_mul a d : d <> 0 -> a / d * d = a.
Proof. intros. field. assumption. Qed.

Lemma max3_cases r g b :
  let M := Rmax (Rmax r g) b in
  (r <= M /\ g <= M /\ b <= M) /\ (M = r \/ M = g \/ M = b).
Proof.
  cbv zeta. unfold Rmax. repeat destruct Rle_dec; repeat split; auto; lra.
Qed.

Lemma min3_cases r g b :
  let m := Rmin (Rmin r g) b in
  (m <= r /\ m <= g /\ m <= b) /\ (m = r \/ m = g \/ m = b).
Proof.
  cbv zeta. unfold Rmin. repeat destruct Rle_dec; repeat split; auto; lra.
Qed.

(** C2.  For every RGB colour [c] whose three components lie in [0, 1],
    over exact real arithmetic, converting to HSL and back gives the colour
    again: [hsl2rgb (rgb2hsl c) = c]. *)
Theorem hsl_roundtrip (c : vec3) : unit3 c -> hsl2rgb (rgb2hsl c) = c.
Proof.
  destruct c as [r g b]. unfold unit3; cbn [v3x v3y v3z]. intros (Hr & Hg & Hb).
  unfold rgb2hsl; cbn [v3x v3y v3z]; cbv zeta.
  destruct (max3_cases r g b) as ((M1 & M2 & M3) & HM).
  destruct (min3_cases r g b) as ((m1 & m2 & m3) & Hm).
  set (M := Rmax (Rmax r g) b) in *. set (m := Rmin (Rmin r g) b) in *.
  clearbody M m.
  destruct (Req_dec_T M m) as [E | NE].
  - (* a grey: hue and saturation are 0 *)
    rewrite (proj2 (Reqb_true M m) E).
    assert (r = M) by lra. assert (g = M) by lra. assert (b = M) by lra.
    subst r g b m.
    replace 0.0 with (0 / 6.0) at 1 by lra.
    rewrite hsl2rgb_sextant0 by lra.
    unfold chroma. f_equal; lra.
  - rewrite (proj2 (Reqb_false M m) NE).
    assert (Hd : 0 < M - m) by lra.
    assert (Hc := chroma_delta M m ltac:(lra) ltac:(lra) ltac:(lra)).
    set (s := if Rltb 0.5 ((M + m) / 2.0) then _ else _) in *. clearbody s.
    destruct (Req_dec_T r M) as [Er | Nr].
    + (* red is the largest *)
      rewrite (proj2 (Reqb_true r M) Er).
      pose proof (ratio_bounds (g - b) (M - m) Hd ltac:(lra)) as Hq.
      pose proof (ratio_mul (g - b) (M - m) ltac:(lra)) as Hqm.
      set (q := (g - b) / (M - m)) in *. clearbody q.
      destruct (Rlt_dec g b) as [Hgb | Hgb].
      * rewrite (Rltb_yes g b Hgb).
        assert (q < 0) by nra.
        assert (m = g) by (destruct Hm as [-> | [-> | ->]]; lra).
        rewrite hsl2rgb_sextant5 by lra. rewrite Hc. f_equal; nra.
      * rewrite (Rltb_no g b) by lra.
        assert (0 <= q) by nra.
        assert (m = b) by (destruct Hm as [-> | [-> | ->]]; lra).
        destruct (Rlt_dec q 1).
        -- rewrite hsl2rgb_sextant0 by lra. rewrite Hc. f_equal; nra.
        -- assert (q = 1) by lra. subst q.
           rewrite hsl2rgb_sextant1 by lra. rewrite Hc. f_equal; nra.
    + rewrite (proj2 (Reqb_false r M) Nr).
      destruct (Req_dec_T g M) as [Eg | Ng].
      * (* green is the largest, red is not *)
        rewrite (proj2 (Reqb_true g M) Eg).
        pose proof (ratio_bounds (b - r) (M - m) Hd ltac:(lra)) as Hq.
        pose proof (ratio_mul (b - r) (M - m) ltac:(lra)) as Hqm.
        set (q := (b - r) / (M - m)) in *. clearbody q.
        assert (-1 < q) by nra.
        destruct (Rlt_dec q 0).
        -- assert (m = b) by (destruct Hm as [-> | [-> | ->]]; nra).
           rewrite hsl2rgb_sextant1 by lra. rewrite Hc. f_equal; nra.
        -- assert (m = r) by (destruct Hm as [-> | [-> | ->]]; nra).
           destruct (Rlt_dec q 1).
           ++ rewrite hsl2rgb_sextant2 by lra. rewrite Hc. f_equal; nra.
           ++ assert (q = 1) by lra. subst q.
              rewrite hsl2rgb_sextant3 by lra. rewrite Hc. f_equal; nra.
      * (* blue alone is the largest *)
        rewrite (proj2 (Reqb_false g M) Ng).
        assert (b = M) by (destruct HM as [? | [? | ?]]; congruence).
        pose proof (ratio_bounds (r - g) (M - m) Hd ltac:(lra)) as Hq.
        pose proof (ratio_mul (r - g) (M - m) ltac:(lra)) as Hqm.
        set (q := (r - g) / (M - m)) in *. clearbody q.
        assert (-1 < q < 1) by nra.
        destruct (Rlt_dec q 0).
        -- assert (m = r) by (destruct Hm as [-> | [-> | ->]]; nra).
           rewrite hsl2rgb_sextant3 by lra. rewrite Hc. f_equal; nra.
        -- assert (m = g) by (destruct Hm as [-> | [-> | ->]]; nra).
           rewrite hsl2rgb_sextant4 by lra. rewrite Hc. f_equal; nra.
Qed.

Lemma hsl_roundtrip_witness :
  unit3 (mkVec3 (1 / 2) (1 / 4) 1) /\
  hsl2rgb (rgb2hsl (mkVec3 (1 / 2) (1 / 4) 1)) = mkVec3 (1 / 2) (1 / 4) 1.
Proof.
  assert (H : unit3 (mkVec3 (1 / 2) (1 / 4) 1)).
  { unfold unit3. cbn [v3x v3y v3z]. repeat split; lra. }
  split; [exact H|]. exact (hsl_roundtrip _ H).
Defined.

(** *** The kaleidoscope fold *)

(** The constant the shader uses for pi is below pi. *)
Lemma pi_code_lt_PI : 3.14159265 < PI.
Proof.
  pose proof (PI_2_3_7_ineq 4) as [H _].
  unfold sum_f_R0, tg_alt, PI_2_3_7_tg, Ratan_seq in H.
  cbv [Nat.mul Nat.add] in H.
  rewrite ?S_INR in H. simpl INR in H. simpl pow in H.
  lra.
Qed.

Lemma glsl_mod_range x y : 0 < y -> 0 <= glsl_mod x y < y.
Proof.
  intros Hy. unfold glsl_mod.
  pose proof (floor_bounds (x / y)) as [H1 H2].
  assert (E : x = x / y * y) by (field; lra).
  set (q := x / y) in *. clearbody q. set (f := floor q) in *. clearbody f.
  subst x. split; nra.
Qed.

Lemma glsl_mod_small x y : 0 <= x < y -> glsl_mod x y = x.
Proof.
  intros [H0 H1]. unfold glsl_mod.
  rewrite (floor_eq (x / y) 0%Z); [lra|].
  assert (E : x = x / y * y) by (field; lra).
  set (q := x / y) in *. clearbody q. simpl. split; nra.
Qed.

(** No float is nearer to the literal: the floats between 2 and 4 are
    [2 ^ -22] apart. *)
Lemma pi32_nearest : Rabs (3.14159265 - pi32) < / 2 * / 4194304.
Proof. unfold pi32. apply Rabs_def1; lra. Qed.

Lemma PI_lt_pi32 : PI < pi32.
Proof.
  pose proof (PI_2_3_7_ineq 4) as [_ H].
  unfold sum_f_R0, tg_alt, PI_2_3_7_tg, Ratan_seq in H.
  cbv [Nat.mul Nat.add] in H.
  rewrite ?S_INR in H. simpl INR in H. simpl pow in H.
  unfold pi32. lra.
Qed.

Lemma segmentAngle_bounds n : 2 < n -> 0 < segmentAngle n < pi32.
Proof.
  intros Hn. unfold segmentAngle.
  assert (E : pi32 * 2.0 = pi32 * 2.0 / n * n)
    by (unfold pi32; undec; field; lra).
  assert (Hp : 3 < pi32 < 4) by (unfold pi32; lra).
  set (q := pi32 * 2.0 / n) in *. clearbody q. split; nra.
Qed.

Lemma foldAngle_range n centered :
  2 < n -> 0 <= foldAngle n centered <= segmentAngle n * 0.5.
Proof.
  intros Hn. pose proof (segmentAngle_bounds n Hn) as [Hs _].
  unfold foldAngle; cbv zeta.
  pose proof (glsl_mod_range (atan2 (vy centered) (vx centered))
                (segmentAngle n) Hs) as [H0 H1].
  set (a := glsl_mod _ _) in *. clearbody a.
  destruct (Rlt_dec (segmentAngle n * 0.5) a).
  - rewrite Rltb_yes by assumption. lra.
  - rewrite Rltb_no by lra. lra.
Qed.

(** [atan(y, x)] gives back the angle of a point in polar form. *)
Lemma atan2_polar a r :
  0 <= a < PI -> 0 < r -> atan2 (sin a * r) (cos a * r) = a.
Proof.
  intros [Ha0 Ha1] Hr. unfold atan2.
  destruct (Rtotal_order a (PI / 2)) as [Hlt | [Heq | Hgt]].
  - assert (Hc : 0 < cos a) by (apply cos_gt_0; lra).
    rewrite Rltb_yes by nra.
    replace (sin a * r / (cos a * r)) with (tan a)
      by (unfold tan; field; lra).
    apply atan_tan. lra.
  - subst a. rewrite cos_PI2, sin_PI2.
    rewrite Rltb_no by lra. rewrite Rltb_no by lra.
    rewrite Rltb_yes by lra. reflexivity.
  - assert (Hc : cos a < 0) by (apply cos_lt_0; lra).
    assert (Hs : 0 < sin a) by (apply sin_gt_0; lra).
    rewrite Rltb_no by nra. rewrite Rltb_yes by nra. rewrite Rltb_no by nra.
    replace (sin a * r / (cos a * r)) with (tan (a - PI)).
    + rewrite atan_tan by lra. lra.
    + unfold tan. replace a with ((a - PI) + PI) at 3 4 by lra.
      rewrite neg_sin, neg_cos.
      assert (cos (a - PI) <> 0).
      { replace a with ((a - PI) + PI) in Hc by lra.
        rewrite neg_cos in Hc. lra. }
      field. split; lra.
Qed.

Lemma length_polar a r :
  0 <= r -> length (vscale (mkVec2 (cos a) (sin a)) r) = r.
Proof.
  intros Hr. unfold length, vscale; cbn [vx vy].
  replace (cos a * r * (cos a * r) + sin a * r * (sin a * r))
    with ((Rsqr (sin a) + Rsqr (cos a)) * (r * r)) by (unfold Rsqr; ring).
  rewrite sin2_cos2, Rmult_1_l. apply sqrt_square; assumption.
Qed.

Lemma length_nonneg v : 0 <= length v.
Proof. apply sqrt_pos. Qed.

Lemma vsub_vadd a c : vsub (vadd a c) c = a.
Proof. destruct a, c; unfold vsub, vadd; cbn. f_equal; ring. Qed.

Lemma foldAngle_polar n a r :
  2 < n -> 0 <= a <= segmentAngle n * 0.5 -> 0 < r ->
  foldAngle n (vscale (mkVec2 (cos a) (sin a)) r) = a.
Proof.
  intros Hn Ha Hr. pose proof (segmentAngle_bounds n Hn) as [Hs0 Hs1].
  pose proof pi_code_lt_PI. assert (Hp : pi32 < 4) by (unfold pi32; lra).
  unfold foldAngle, vscale; cbn [vx vy]; cbv zeta.
  rewrite atan2_polar by lra.
  rewrite glsl_mod_small by lra.
  rewrite Rltb_no by lra. reflexivity.
Qed.

Lemma length_zero v : length v = 0 -> v = mkVec2 0 0.
Proof.
  unfold length. intros H. apply sqrt_eq_0 in H; [|nra].
  apply vec2_eq; cbn [vx vy]; nra.
Qed.

Lemma foldAngle_orbit n centered :
  let theta := atan2 (vy centered) (vx centered) in
  exists k : Z,
    foldAngle n centered = theta - IZR k * segmentAngle n \/
    foldAngle n centered = IZR k * segmentAngle n - theta.
Proof.
  cbv zeta. unfold foldAngle, glsl_mod, floor; cbv zeta.
  set (theta := atan2 (vy centered) (vx centered)).
  set (k := Int_part (theta / segmentAngle n)).
  destruct (Rltb (segmentAngle n * 0.5) (theta - segmentAngle n * IZR k)).
  - exists (k + 1)%Z. right. rewrite plus_IZR. ring.
  - exists k. left. ring.
Qed.

(** C6 as stated does not hold.  The shader takes [segmentAngle] from its
    constant for pi, which as a float is a little more than pi; so with
    four segments the point at the angle [segmentAngle / 2] stays where it
    is, at an angle that is more than a half of [2 * PI / 4]. *)
Lemma fold_angle_beyond_pi :
  foldAngle 4 (mkVec2 (cos (segmentAngle 4 / 2)) (sin (segmentAngle 4 / 2)))
    = segmentAngle 4 / 2 /\
  (2 * PI / 4) / 2 < segmentAngle 4 / 2 /\
  ~ foldedWithinPi.
Proof.
  assert (Hs : segmentAngle 4 / 2 = pi32 / 4)
    by (unfold segmentAngle; undec; field).
  assert (H1 : foldAngle 4
             (mkVec2 (cos (segmentAngle 4 / 2)) (sin (segmentAngle 4 / 2)))
           = segmentAngle 4 / 2).
  { replace (mkVec2 (cos (segmentAngle 4 / 2)) (sin (segmentAngle 4 / 2)))
      with (vscale (mkVec2 (cos (segmentAngle 4 / 2))
                           (sin (segmentAngle 4 / 2))) 1)
      by (unfold vscale; cbn [vx vy]; apply vec2_eq; cbn [vx vy]; ring).
    apply foldAngle_polar; [lra | | lra].
    rewrite Hs. unfold segmentAngle, pi32. lra. }
  assert (H2 : (2 * PI / 4) / 2 < segmentAngle 4 / 2).
  { rewrite Hs. pose proof PI_lt_pi32. lra. }
  split; [exact H1|]. split; [exact H2|].
  intros H.
  specialize (H 4 (mkVec2 (cos (segmentAngle 4 / 2)) (sin (segmentAngle 4 / 2)))
                ltac:(lra)).
  rewrite H1 in H. lra.
Qed.

(** C6, amended.  Over exact real arithmetic, with the mirror active
    ([u_mirror > 0.5]) and more than two segments.  The folded angle [a] of
    a point is its angle [theta] about the centre, as [atan] gives it,
    shifted by a whole multiple of [segmentAngle] and reflected if need be,
    so that it lies in [0, segmentAngle / 2]; [segmentAngle] is the shader's
    [3.14159265 * 2 / u_mirrorSegments].  The remap puts the point at the
    angle [a] and at its own distance from the centre: the distance is kept,
    [atan] gives [a] for the new point, and a second remap changes
    nothing. *)
Theorem kaleidoscope_fold (u_mirror u_mirrorSegments u_mirrorSplit : R)
    (center fragCoord : vec2) :
  0.5 < u_mirror -> 2.0 < u_mirrorSegments ->
  let remap := mirrorRemap u_mirror u_mirrorSegments u_mirrorSplit center in
  let centered := vsub fragCoord center in
  let theta := atan2 (vy centered) (vx centered) in
  let a := foldAngle u_mirrorSegments centered in
  let s := segmentAngle u_mirrorSegments in
  (0 <= a <= s / 2 /\
   exists k : Z, a = theta - IZR k * s \/ a = IZR k * s - theta) /\
  remap fragCoord =
    vadd (vscale (mkVec2 (cos a) (sin a)) (dist fragCoord center)) center /\
  dist (remap fragCoord) center = dist fragCoord center /\
  (fragCoord <> center ->
   atan2 (vy (vsub (remap fragCoord) center))
         (vx (vsub (remap fragCoord) center)) = a) /\
  remap (remap fragCoord) = remap fragCoord.
Proof.
  intros Hm Hn remap centered theta a s. set (n := u_mirrorSegments) in *.
  assert (Hn' : 2 < n) by lra.
  pose proof (foldAngle_range n centered Hn') as Hrange. fold a s in Hrange.
  pose proof (segmentAngle_bounds n Hn') as [Hs0 Hs1]. fold s in Hs0, Hs1.
  pose proof pi_code_lt_PI as Hpi. assert (Hp : pi32 < 4) by (unfold pi32; lra).
  set (r := length centered).
  assert (Hout : remap fragCoord =
                 vadd (vscale (mkVec2 (cos a) (sin a)) r) center).
  { unfold remap, mirrorRemap. rewrite !Rltb_yes by assumption. reflexivity. }
  assert (Hr : 0 <= r) by apply length_nonneg.
  assert (Hpos : fragCoord <> center -> 0 < r).
  { intros Hne. destruct Hr as [Hr | Hr]; [exact Hr|].
    exfalso. apply Hne. symmetry in Hr. apply length_zero in Hr.
    unfold centered, vsub in Hr. injection Hr as Hx Hy.
    apply vec2_eq; lra. }
  split; [split; [lra | apply foldAngle_orbit]|].
  split; [exact Hout|]. split; [|split].
  - unfold dist. fold centered. rewrite Hout, vsub_vadd.
    apply length_polar; assumption.
  - intros Hne. rewrite Hout, vsub_vadd. unfold vscale; cbn [vx vy].
    apply atan2_polar; [lra | apply Hpos; exact Hne].
  - rewrite Hout. unfold remap, mirrorRemap.
    rewrite !Rltb_yes by assumption.
    cbv zeta. rewrite vsub_vadd, length_polar by assumption.
    f_equal.
    destruct Hr as [Hr | <-].
    + rewrite foldAngle_polar by (assumption || lra). reflexivity.
    + unfold vscale; cbn [vx vy]. f_equal; ring.
Qed.

(** Six segments about the centre (400, 300): the point (300, 350), to the
    left of the centre, goes to a point to the right of it, and that point
    stays. *)
Lemma kaleidoscope_fold_witness :
  0.5 < 1 /\ 2.0 < 6 /\
  400 < vx (mirrorRemap 1 6 0.5 (mkVec2 400 300) (mkVec2 300 350)) /\
  mirrorRemap 1 6 0.5 (mkVec2 400 300)
    (mirrorRemap 1 6 0.5 (mkVec2 400 300) (mkVec2 300 350)) =
  mirrorRemap 1 6 0.5 (mkVec2 400 300) (mkVec2 300 350).
Proof.
  assert (Hm : 0.5 < 1) by lra. assert (Hn : 2.0 < 6) by lra.
  split; [exact Hm|]. split; [exact Hn|].
  destruct (kaleidoscope_fold 1 6 0.5 (mkVec2 400 300) (mkVec2 300 350) Hm Hn)
    as ((Ha & _) & Hout & _ & _ & Hidem).
  split; [|exact Hidem].
  rewrite Hout. unfold vadd, vscale. cbn [vx vy].
  set (a := foldAngle 6 (vsub (mkVec2 300 350) (mkVec2 400 300))) in *.
  assert (Hs : segmentAngle 6 / 2 < PI / 2).
  { unfold segmentAngle, pi32. pose proof pi_code_lt_PI. lra. }
  assert (Hc : 0 < cos a) by (apply cos_gt_0; pose proof PI_RGT_0; lra).
  assert (Hd : 0 < dist (mkVec2 300 350) (mkVec2 400 300)).
  { unfold dist, length, vsub. cbn [vx vy]. apply sqrt_lt_R0. lra. }
  nra.
Defined.

End GlslFacts.

(** ** The renderer *)

Module RendererFacts.
Import Renderer.

(** *** The wrapped shader text *)

Lemma append_nil_l (s : string) : "" +:+ s = s.
Proof. reflexivity. Qed.

Lemma append_cons (c : Ascii.ascii) (s t : string) :
  String c s +:+ t = String c (s +:+ t).
Proof. reflexivity. Qed.

Lemma append_nil_r (s : string) : s +:+ "" = s.
Proof.
  induction s as [| c s IH]; [reflexivity|].
  rewrite append_cons, IH. reflexivity.
Qed.

Lemma prefix_append (p rest : string) : String.prefix p (p +:+ rest) = true.
Proof.
  induction p as [| ch p IH].
  - rewrite append_nil_l. destruct rest; reflexivity.
  - rewrite append_cons. cbn [String.prefix].
    destruct (Ascii.ascii_dec ch ch) as [_ | N]; [exact IH | contradiction].
Qed.

Lemma occurrences_append (pat pre post : string) :
  (1 <= occurrences pat (pre +:+ pat +:+ post))%nat.
Proof.
  induction pre as [| ch pre IH].
  - rewrite append_nil_l.
    pose proof (prefix_append pat post) as H.
    remember (pat +:+ post) as text eqn:E. clear E.
    destruct text; cbn [occurrences]; rewrite H; lia.
  - rewrite append_cons. cbn [occurrences]. lia.
Qed.

Lemma substring_append (pre s post : string) :
  substring (String.length pre) (String.length s) (pre +:+ s +:+ post) = s.
Proof.
  induction pre as [| ch pre IH].
  - rewrite append_nil_l. cbn [String.length].
    induction s as [| c s IHs].
    + destruct post; reflexivity.
    + rewrite append_cons. cbn [String.length substring]. f_equal. exact IHs.
  - rewrite append_cons. cbn [String.length substring]. exact IH.
Qed.

Lemma fill_one_hole (pre post s : string) :
  fill [Lit pre; Hole; Lit post] s = pre +:+ s +:+ post.
Proof. cbn [fill]. rewrite append_nil_r. reflexivity. Qed.

(** C3 as stated does not hold.  The body need not occur exactly once: the
    text [mainImage], taken as the body, is also there twice in the wrapping
    [main]. *)
Lemma fragment_occurs_thrice :
  occurrences "mainImage" (wrappedFragmentShader "mainImage") = 3%nat /\
  ~ occursExactlyOnce "mainImage".
Proof.
  assert (H : occurrences "mainImage" (wrappedFragmentShader "mainImage") = 3%nat)
    by (vm_compute; reflexivity).
  split; [exact H|]. unfold occursExactlyOnce. rewrite H. discriminate.
Qed.

(** C3, amended.  For every shader body [s], [createShaderMaterial] builds
    the fragment shader [P ++ s ++ Q], where the prefix [P] and the suffix
    [Q] are the two fixed chunks of a template with a single hole; [s]
    stands verbatim right after [P], so it occurs at least once (more often
    when it also occurs in the wrapper or overlaps itself).  The renderer of
    [main.js] wraps the same way with its own prefix and suffix. *)
Theorem createShaderMaterial_wraps (globalUniforms : GlobalUniforms)
    (maskTexture : option Texture) (innerWidth innerHeight : R) (s : string) :
  let result :=
    mat_fragmentShader
      (createShaderMaterial globalUniforms maskTexture innerWidth innerHeight s) in
  result = wrapperPrefix +:+ s +:+ wrapperSuffix /\
  wrapperTemplate = [Lit wrapperPrefix; Hole; Lit wrapperSuffix] /\
  holes wrapperTemplate = 1%nat /\
  substring (String.length wrapperPrefix) (String.length s) result = s /\
  (1 <= occurrences s result)%nat /\
  legacyWrappedFragmentShader s = legacyPrefix +:+ s +:+ legacySuffix.
Proof.
  cbv zeta. unfold createShaderMaterial; cbn [mat_fragmentShader].
  unfold wrappedFragmentShader, legacyWrappedFragmentShader,
    wrapperTemplate, legacyTemplate.
  rewrite !fill_one_hole.
  repeat split.
  - apply substring_append.
  - apply occurrences_append.
Qed.

(** *** The mask: inversion, undo history *)

Lemma clamp_byte v : isByte v -> clamp v = v.
Proof. unfold isByte, clamp. lia. Qed.

Lemma clamp_isByte v : isByte (clamp v).
Proof. unfold isByte, clamp. lia. Qed.

Lemma invertAt_length j d : List.length (invertAt j d) = List.length d.
Proof. unfold invertAt. destruct (d !! j); [apply length_insert | reflexivity]. Qed.

Lemma invertAt_lookup j d k :
  invertAt j d !! k =
  if decide (k = j) then (fun v => clamp (255 - v)) <$> d !! k else d !! k.
Proof.
  unfold invertAt. destruct (decide (k = j)) as [-> | Hne].
  - destruct (d !! j) as [v |] eqn:E.
    + rewrite list_lookup_insert_eq by (eapply lookup_lt_Some; exact E).
      reflexivity.
    + rewrite E. reflexivity.
  - destruct (d !! j); [|reflexivity].
    apply list_lookup_insert_ne. congruence.
Qed.

Lemma invertStep_length i d : List.length (invertStep i d) = List.length d.
Proof. unfold invertStep. rewrite !invertAt_length. reflexivity. Qed.

Lemma invertStep_lookup i d k :
  (i mod 4 = 0)%nat ->
  invertStep i d !! k =
  if decide (i <= k < i + 4)%nat then storedChannel k <$> d !! k else d !! k.
Proof.
  intros Hi. unfold invertStep. rewrite !invertAt_lookup.
  assert (Hk : (i <= k < i + 4)%nat ->
               (k mod 4 = k - i)%nat).
  { intros Hr. replace k with ((k - i) + (i / 4) * 4)%nat at 1.
    - rewrite Nat.Div0.mod_add. apply Nat.mod_small. lia.
    - pose proof (Nat.div_mod_eq i 4). lia. }
  unfold storedChannel.
  repeat destruct decide; try lia; try reflexivity.
  - rewrite Hk by lia.
    replace (k - i =? 3)%nat with false
      by (symmetry; apply Nat.eqb_neq; lia).
    reflexivity.
  - rewrite Hk by lia.
    replace (k - i =? 3)%nat with false
      by (symmetry; apply Nat.eqb_neq; lia).
    reflexivity.
  - rewrite Hk by lia.
    replace (k - i =? 3)%nat with false
      by (symmetry; apply Nat.eqb_neq; lia).
    reflexivity.
  - rewrite Hk by lia.
    replace (k - i =? 3)%nat with true
      by (symmetry; apply Nat.eqb_eq; lia).
    destruct (d !! k); reflexivity.
Qed.

Lemma invertFrom_lookup fuel : forall i d k,
  (i mod 4 = 0)%nat -> (List.length d - i <= fuel)%nat ->
  invertFrom fuel i d !! k =
  if decide (i <= k)%nat then storedChannel k <$> d !! k else d !! k.
Proof.
  induction fuel as [| fuel IH]; intros i d k Hi Hf; cbn [invertFrom].
  - destruct decide; [|reflexivity].
    rewrite lookup_ge_None_2 by lia. reflexivity.
  - destruct (Nat.ltb_spec i (List.length d)) as [Hlt | Hge].
    + rewrite IH.
      * rewrite invertStep_lookup by assumption.
        repeat destruct decide; try lia; reflexivity.
      * replace (i + 4)%nat with (i + 1 * 4)%nat by lia.
        rewrite Nat.Div0.mod_add. assumption.
      * rewrite invertStep_length. lia.
    + destruct decide; [|reflexivity].
      rewrite lookup_ge_None_2 by lia. reflexivity.
Qed.

Lemma invertData_lookup d k :
  invertData d !! k = storedChannel k <$> d !! k.
Proof.
  unfold invertData. rewrite invertFrom_lookup by (reflexivity || lia).
  destruct decide; [reflexivity | lia].
Qed.

(** Two pixels, and an array that ends in the middle of a pixel. *)
Example invertData_two_pixels :
  invertData [0; 10; 255; 7; 1; 2; 3; 4]%Z = [255; 245; 0; 7; 254; 253; 252; 4]%Z.
Proof. reflexivity. Qed.

Example invertData_ragged :
  invertData [0; 10; 255; 7; 1; 2]%Z = [255; 245; 0; 7; 254; 253]%Z.
Proof. reflexivity. Qed.

Lemma invertData_length d : List.length (invertData d) = List.length d.
Proof.
  apply Nat.le_antisymm.
  - destruct (Nat.le_gt_cases (List.length (invertData d)) (List.length d))
      as [H | H]; [exact H|].
    apply lookup_lt_is_Some_2 in H. rewrite invertData_lookup in H.
    rewrite lookup_ge_None_2 in H by lia. destruct H; discriminate.
  - destruct (Nat.le_gt_cases (List.length d) (List.length (invertData d)))
      as [H | H]; [exact H|].
    apply lookup_lt_is_Some_2 in H.
    pose proof (invertData_lookup d (List.length (invertData d))) as E.
    rewrite lookup_ge_None_2 in E by lia.
    destruct H as [v Hv]. rewrite Hv in E. discriminate.
Qed.

Lemma storedChannel_byte k v : isByte v -> storedChannel k v = invertChannel k v.
Proof.
  intros Hv. unfold storedChannel, invertChannel.
  destruct (k mod 4 =? 3)%nat; [reflexivity|].
  apply clamp_byte. unfold isByte in *. lia.
Qed.

Lemma invertChannel_byte k v : isByte v -> isByte (invertChannel k v).
Proof. unfold invertChannel, isByte. destruct (k mod 4 =? 3)%nat; lia. Qed.

Lemma invertChannel_twice k v : invertChannel k (invertChannel k v) = v.
Proof. unfold invertChannel. destruct (k mod 4 =? 3)%nat; lia. Qed.

Lemma invertData_bytes d :
  Forall isByte d -> invertData d = imap invertChannel d.
Proof.
  intros Hd. apply list_eq. intros k.
  rewrite invertData_lookup, list_lookup_imap.
  destruct (d !! k) as [v |] eqn:E; [|reflexivity].
  cbn. f_equal. apply storedChannel_byte.
  rewrite Forall_lookup in Hd. eapply Hd; exact E.
Qed.

Lemma invertData_Forall d : Forall isByte d -> Forall isByte (invertData d).
Proof.
  intros Hd. rewrite invertData_bytes by assumption.
  rewrite Forall_lookup. intros k v. rewrite list_lookup_imap.
  destruct (d !! k) as [w |] eqn:E; [|discriminate].
  cbn. intros [= <-]. apply invertChannel_byte.
  rewrite Forall_lookup in Hd. eapply Hd; exact E.
Qed.

Lemma invertData_twice d : Forall isByte d -> invertData (invertData d) = d.
Proof.
  intros Hd.
  rewrite (invertData_bytes (invertData d))
    by (apply invertData_Forall; assumption).
  rewrite invertData_bytes by assumption.
  apply list_eq. intros k. rewrite !list_lookup_imap.
  destruct (d !! k); [|reflexivity]. cbn. f_equal. apply invertChannel_twice.
Qed.

Section Canvas2DFacts.
Variable readBack : Z -> Z -> Z.

Lemma opaque_held d : opaque d -> heldExactly readBack d.
Proof.
  intros Ho i v alpha Hv Ha. unfold written.
  destruct (Nat.eqb_spec (i mod 4) 3) as [_ | _]; [reflexivity|].
  assert (E : alpha = 255%Z).
  { apply lookup_lt_Some in Ha as Hlt.
    rewrite (Ho _ Hlt) in Ha; [congruence|].
    rewrite Nat.add_comm, Nat.mul_comm, Nat.Div0.mod_add. reflexivity. }
  rewrite E. reflexivity.
Qed.

Lemma transparent_held n : heldExactly readBack (replicate n 0%Z).
Proof.
  intros i v alpha Hv Ha.
  apply lookup_replicate in Hv as [-> _]. apply lookup_replicate in Ha as [-> _].
  unfold written. destruct (i mod 4 =? 3)%nat; reflexivity.
Qed.

(** An image of the size of the canvas whose pixels the canvas holds
    exactly replaces the content of the canvas. *)
Lemma putImageData_same_size c img :
  img_width img = width c -> img_height img = height c ->
  List.length (pixels c) = (4 * width c * height c)%nat ->
  List.length (data img) = (4 * width c * height c)%nat ->
  heldExactly readBack (data img) ->
  putImageData readBack c img = mkCanvas (width c) (height c) (data img).
Proof.
  intros Hw Hh Hp Hd Hheld. unfold putImageData. f_equal.
  apply list_eq. intros i. rewrite list_lookup_imap.
  destruct (pixels c !! i) as [old |] eqn:E.
  - pose proof (lookup_lt_Some _ _ _ E) as Hi. rewrite Hp in Hi.
    assert (Hwpos : (0 < width c)%nat) by (destruct (width c); lia).
    assert (Hq : (i / 4 < width c * height c)%nat)
      by (apply Nat.Div0.div_lt_upper_bound; lia).
    assert (Hx : ((i / 4) mod width c < width c)%nat)
      by (apply Nat.mod_upper_bound; lia).
    assert (Hy : (i / 4 / width c < height c)%nat)
      by (apply Nat.Div0.div_lt_upper_bound; lia).
    cbn [fmap option_fmap option_map]; cbv beta zeta. rewrite Hw, Hh.
    rewrite (proj2 (Nat.ltb_lt _ _) Hx), (proj2 (Nat.ltb_lt _ _) Hy).
    cbn [andb].
    assert (Epix : (4 * (i / 4 / width c * width c + (i / 4) mod width c)
                    = 4 * (i / 4))%nat)
      by (pose proof (Nat.div_mod_eq (i / 4) (width c)); lia).
    rewrite Epix.
    replace (4 * (i / 4) + i mod 4)%nat with i
      by (pose proof (Nat.div_mod_eq i 4); lia).
    destruct (lookup_lt_is_Some_2 (data img) i) as [v Hv]; [lia|].
    destruct (lookup_lt_is_Some_2 (data img) (4 * (i / 4) + 3)) as [al Hal];
      [lia|].
    rewrite Hv, Hal. f_equal. apply (Hheld i v al Hv Hal).
  - cbn [fmap option_fmap option_map]. symmetry. apply lookup_ge_None_2.
    apply lookup_ge_None_1 in E. lia.
Qed.

Lemma canvas_eta c : mkCanvas (width c) (height c) (pixels c) = c.
Proof. destruct c; reflexivity. Qed.

Lemma invertData_opaque d : opaque d -> opaque (invertData d).
Proof.
  intros Ho i Hi Hm. rewrite invertData_length in Hi.
  rewrite invertData_lookup, (Ho i Hi Hm). cbn. f_equal.
  unfold storedChannel. rewrite Hm. reflexivity.
Qed.

(** C10, amended.  On a mask whose pixels are all opaque, as [clearMask]
    and the drawing on it leave them, [invertMask] replaces the red, green
    and blue value [v] of every pixel by [255 - v] and leaves alpha as it
    is, and doing it twice gives back every pixel of the mask. *)
Theorem invertMask_involution (r : ShaderRenderer) (c : Canvas) :
  maskCtx r = Some c -> wfCanvas c -> Forall isByte (pixels c) ->
  opaque (pixels c) ->
  (exists c1, maskCtx (invertMask readBack r) = Some c1 /\
     width c1 = width c /\ height c1 = height c /\
     pixels c1 = imap invertChannel (pixels c)) /\
  maskCtx (invertMask readBack (invertMask readBack r)) = Some c.
Proof.
  intros Hc Hwf Hb Ho. unfold wfCanvas in Hwf.
  assert (Ho1 : opaque (invertData (pixels c))) by (apply invertData_opaque, Ho).
  assert (H1 : maskCtx (invertMask readBack r) =
               Some (mkCanvas (width c) (height c) (invertData (pixels c)))).
  { unfold invertMask. rewrite Hc.
    cbn [maskCtx getImageData img_width img_height data].
    rewrite putImageData_same_size; cbn [img_width img_height data];
      rewrite ?invertData_length; auto using opaque_held. }
  split.
  - eexists. split; [exact H1|]. cbn. repeat split.
    apply invertData_bytes; assumption.
  - unfold invertMask at 1. rewrite H1.
    cbn [maskCtx getImageData img_width img_height data width height pixels].
    rewrite putImageData_same_size;
      cbn [img_width img_height data width height pixels];
      rewrite ?invertData_length; auto.
    + rewrite invertData_twice by assumption. rewrite canvas_eta. reflexivity.
    + rewrite invertData_twice by assumption. apply opaque_held, Ho.
Qed.

Lemma saveToHistory_history r c :
  maskCtx r = Some c ->
  maskHistory (saveToHistory r) =
  if (maxHistory r <=? List.length (maskHistory r))%nat
  then tail (maskHistory r ++ [getImageData c])
  else maskHistory r ++ [getImageData c].
Proof.
  intros Hc. unfold saveToHistory. rewrite Hc. cbn [maskHistory].
  rewrite length_app. cbn [List.length].
  destruct (Nat.ltb_spec (maxHistory r) (List.length (maskHistory r) + 1));
    destruct (Nat.leb_spec (maxHistory r) (List.length (maskHistory r)));
    try lia; reflexivity.
Qed.

Lemma saveToHistory_ctx r : maskCtx (saveToHistory r) = maskCtx r.
Proof.
  unfold saveToHistory. destruct (maskCtx r) eqn:E; [reflexivity | exact E].
Qed.


Lemma tail_snoc {A} (l : list A) (x : A) :
  l <> [] -> tail (l ++ [x]) = tail l ++ [x].
Proof. destruct l; [contradiction | reflexivity]. Qed.

(** After a save the newest entry is the snapshot, whatever was shifted. *)
Lemma saveToHistory_last r c :
  maskCtx r = Some c -> (0 < maxHistory r)%nat ->
  exists older,
    maskHistory (saveToHistory r) = older ++ [getImageData c] /\
    older = if (maxHistory r <=? List.length (maskHistory r))%nat
            then tail (maskHistory r) else maskHistory r.
Proof.
  intros Hc Hmax. rewrite (saveToHistory_history r c Hc).
  destruct (Nat.leb_spec (maxHistory r) (List.length (maskHistory r))) as [H | H].
  - exists (tail (maskHistory r)). split; [|reflexivity].
    apply tail_snoc. intros E. rewrite E in H. cbn in H. lia.
  - eexists. split; reflexivity.
Qed.


Lemma undoMask_snoc r c' older img :
  maskCtx r = Some c' -> maskHistory r = older ++ [img] ->
  undoMask readBack r =
  (true, mkShaderRenderer (Some (putImageData readBack c' img))
           (touchTexture (maskTexture r)) older (maxHistory r)).
Proof.
  intros Hc Hh. unfold undoMask. rewrite Hc, Hh, last_snoc, removelast_last.
  reflexivity.
Qed.


(** Drawing, whatever the rasteriser paints, leaves the history and the
    size of the canvas alone, so the statement above covers every run of
    brush strokes, polygons and inversions after a save. *)
Section DrawingRuns.
Variable rasterFill : Canvas -> Path -> bool -> list Z.
Variables innerWidth innerHeight : Q.
Hypothesis rasterFill_length :
  forall c p black,
    List.length (rasterFill c p black) = List.length (pixels c).

Lemma drawing_op_keeps r c op :
  maskCtx r = Some c -> isDrawing op = true ->
  exists c',
    maskCtx (runOp readBack rasterFill innerWidth innerHeight r op) = Some c' /\
    sameCanvasSize c c' /\
    maskHistory (runOp readBack rasterFill innerWidth innerHeight r op) = maskHistory r.
Proof.
  intros Hc Hop. destruct op; try discriminate Hop; cbn [runOp].
  - unfold invertMask. rewrite Hc. eexists. split; [reflexivity|].
    split; [|reflexivity].
    unfold sameCanvasSize, putImageData. cbn [width height pixels].
    rewrite length_imap. repeat split.
  - unfold drawOnMask. rewrite Hc.
    destruct (toCanvas innerWidth innerHeight c (x, y)) as [cx cy].
    eexists. split; [reflexivity|]. split; [|reflexivity].
    unfold sameCanvasSize, fillPath. cbn [width height pixels].
    rewrite rasterFill_length. repeat split.
  - unfold drawPolygonOnMask. rewrite Hc.
    destruct (List.length points <? 3)%nat.
    + exists c. split; [exact Hc|]. split; [repeat split | reflexivity].
    + eexists. split; [reflexivity|]. split; [|reflexivity].
      unfold sameCanvasSize, fillPath. cbn [width height pixels].
      rewrite rasterFill_length. repeat split.
Qed.

Lemma drawing_ops_keep ops : forall r c,
  maskCtx r = Some c -> Forall (fun op => isDrawing op = true) ops ->
  exists c',
    maskCtx (runOps readBack rasterFill innerWidth innerHeight r ops) = Some c' /\
    sameCanvasSize c c' /\
    maskHistory (runOps readBack rasterFill innerWidth innerHeight r ops) = maskHistory r.
Proof.
  unfold runOps. induction ops as [| op ops IH]; intros r c Hc Hall;
    cbn [fold_left].
  - exists c. split; [exact Hc|]. split; [repeat split | reflexivity].
  - inversion Hall as [| ? ? Hop Hrest]; subst.
    destruct (drawing_op_keeps r c op Hc Hop) as (c1 & Hc1 & (W1 & H1 & L1) & Hh1).
    destruct (IH _ c1 Hc1 Hrest) as (c2 & Hc2 & (W2 & H2 & L2) & Hh2).
    exists c2. split; [exact Hc2|]. split.
    + repeat split; congruence.
    + rewrite Hh2. exact Hh1.
Qed.

Lemma undo_after_drawing r c ops :
  maskCtx r = Some c -> wfCanvas c -> heldExactly readBack (pixels c) ->
  (0 < maxHistory r)%nat ->
  Forall (fun op => isDrawing op = true) ops ->
  exists r'',
    undoMask readBack (runOps readBack rasterFill innerWidth innerHeight (saveToHistory r) ops)
      = (true, r'') /\
    maskCtx r'' = Some c.
Proof.
  intros Hc Hwf Hheld Hmax Hall.
  assert (Hc1 : maskCtx (saveToHistory r) = Some c)
    by (rewrite saveToHistory_ctx; exact Hc).
  destruct (drawing_ops_keep ops _ c Hc1 Hall) as (c' & Hc' & (W & H & L) & Hh).
  destruct (saveToHistory_last r c Hc Hmax) as (older & Hsave & _).
  rewrite Hsave in Hh.
  eexists. split; [apply (undoMask_snoc _ c' older _ Hc' Hh)|].
  cbn [maskCtx]. unfold wfCanvas in Hwf.
  rewrite putImageData_same_size;
    cbn [getImageData img_width img_height data]; try congruence;
    try exact Hheld.
  rewrite W, H, canvas_eta. reflexivity.
Qed.
End DrawingRuns.






Section Runs.
Variable rasterFill : Canvas -> Path -> bool -> list Z.
Variables innerWidth innerHeight : Q.


End Runs.


End Canvas2DFacts.

Lemma demoPainted_opaque : opaque (pixels demoPaintedCanvas).
Proof.
  intros i Hi Hm. cbn in Hi.
  do 8 (destruct i as [| i]; [first [discriminate Hm | reflexivity]|]). lia.
Qed.

Lemma invertMask_involution_witness :
  maskCtx demoPainted = Some demoPaintedCanvas /\
  wfCanvas demoPaintedCanvas /\ Forall isByte (pixels demoPaintedCanvas) /\
  opaque (pixels demoPaintedCanvas) /\
  maskCtx (invertMask roundingBrowser (invertMask roundingBrowser demoPainted))
    = Some demoPaintedCanvas.
Proof.
  assert (Hc : maskCtx demoPainted = Some demoPaintedCanvas) by reflexivity.
  assert (Hwf : wfCanvas demoPaintedCanvas) by reflexivity.
  assert (Hb : Forall isByte (pixels demoPaintedCanvas))
    by (cbn [pixels demoPaintedCanvas]; repeat constructor; unfold isByte; lia).
  split; [exact Hc|]. split; [exact Hwf|]. split; [exact Hb|].
  split; [exact demoPainted_opaque|].
  exact (proj2 (invertMask_involution roundingBrowser demoPainted
                  demoPaintedCanvas Hc Hwf Hb demoPainted_opaque)).
Defined.

(** C10 as stated does not hold.  A new renderer keeps the untouched,
    transparent canvas as the first entry of its history, and one undo
    brings it back.  Its pixels are 0, 0, 0, 0; [invertMask] writes 255,
    255, 255, 0, and the canvas, which keeps no colour under alpha 0, still
    reads 0, 0, 0, 0 afterwards. *)
Lemma invertMask_keeps_transparent :
  (exists r1,
     undoMask roundingBrowser demoRenderer = (true, r1) /\
     maskCtx r1 = Some (newCanvas 2 1) /\
     maskCtx (invertMask roundingBrowser r1) = Some (newCanvas 2 1)) /\
  ~ invertsEveryPixel roundingBrowser.
Proof.
  set (r1 := snd (undoMask roundingBrowser demoRenderer)).
  assert (H1 : undoMask roundingBrowser demoRenderer = (true, r1))
    by (vm_compute; reflexivity).
  assert (H2 : maskCtx r1 = Some (newCanvas 2 1)) by (vm_compute; reflexivity).
  assert (H3 : maskCtx (invertMask roundingBrowser r1) = Some (newCanvas 2 1))
    by (vm_compute; reflexivity).
  split; [exists r1; repeat split; assumption|].
  intros H.
  assert (Hwf : wfCanvas (newCanvas 2 1)) by reflexivity.
  assert (Hb : Forall isByte (pixels (newCanvas 2 1)))
    by (cbn; repeat constructor; unfold isByte; lia).
  destruct (H r1 (newCanvas 2 1) H2 Hwf Hb) as (c1 & Hc1 & Hp).
  rewrite H3 in Hc1. injection Hc1 as <-. discriminate Hp.
Qed.




End RendererFacts.

(** ** JavaScript numbers: rounding to binary64 *)

Module DoubleFacts.
Import Double.
Local Open Scope Q_scope.

Lemma pow2_pos e : 0 < 2 ^ e.
Proof. apply Qpower_0_lt. reflexivity. Qed.

Lemma pow2_succ e : 2 ^ (e + 1) == 2 * 2 ^ e.
Proof. rewrite Qpower_plus by discriminate. rewrite Qpower_1_r. ring. Qed.

Lemma pow2_pred e : 2 ^ (e - 1) == 2 ^ e / 2.
Proof. rewrite Qpower_minus by discriminate. rewrite Qpower_1_r. reflexivity. Qed.

Lemma pow2_inject (a : Z) : (0 <= a)%Z -> inject_Z (2 ^ a) == 2 ^ a.
Proof. intros H. apply Zpower_Qpower. exact H. Qed.

Lemma Q_as_fraction (x : Q) : x == inject_Z (Qnum x) / inject_Z (Z.pos (Qden x)).
Proof.
  destruct x as [p q]. unfold Qeq, Qdiv, Qmult, Qinv, inject_Z. cbn. lia.
Qed.

Lemma log2_bounds (p : Z) :
  (0 < p)%Z -> 2 ^ Z.log2 p <= inject_Z p /\ inject_Z p < 2 ^ (Z.log2 p + 1).
Proof.
  intros Hp. destruct (Z.log2_spec p Hp) as [H1 H2].
  pose proof (Z.log2_nonneg p) as H0.
  rewrite <- !pow2_inject by lia. rewrite <- Zle_Qle, <- Zlt_Qlt.
  replace (Z.log2 p + 1)%Z with (Z.succ (Z.log2 p)) by lia. split; assumption.
Qed.

Lemma ilog2_spec (x : Q) :
  0 < x -> 2 ^ ilog2 x <= x /\ x < 2 ^ (ilog2 x + 1).
Proof.
  intros Hx. unfold ilog2.
  set (a := Z.log2 (Qnum x)). set (b := Z.log2 (Z.pos (Qden x))).
  assert (Hp : (0 < Qnum x)%Z).
  { destruct x as [p q]. unfold Qlt in Hx. cbn in *. lia. }
  destruct (log2_bounds (Qnum x) Hp) as [P1 P2]. fold a in P1, P2.
  destruct (log2_bounds (Z.pos (Qden x)) eq_refl) as [Q1 Q2]. fold b in Q1, Q2.
  pose proof (Q_as_fraction x) as Hfr.
  set (P := inject_Z (Qnum x)) in *. set (D := inject_Z (Z.pos (Qden x))) in *.
  assert (HD : 0 < D) by (unfold D; rewrite <- (Zlt_Qlt 0); reflexivity).
  assert (Hx' : x * D == P).
  { rewrite Hfr. field. intros E. rewrite E in HD. discriminate. }
  pose proof (pow2_pos a) as Ha. pose proof (pow2_pos b) as Hb.
  pose proof (pow2_pos (a - b)) as Hab.
  assert (Ea : 2 ^ a == 2 ^ (a - b) * 2 ^ b).
  { rewrite <- Qpower_plus by discriminate. replace (a - b + b)%Z with a by lia.
    reflexivity. }
  rewrite pow2_succ in P2, Q2.
  destruct (Qle_bool (2 ^ (a - b)) x) eqn:E.
  - apply Qle_bool_iff in E. split; [exact E|].
    rewrite pow2_succ.
    (* x * D = P < 2 * 2^a = 2 * 2^(a-b) * 2^b <= 2 * 2^(a-b) * D *)
    apply Qnot_le_lt. intros C.
    assert (2 * 2 ^ (a - b) * 2 ^ b <= x * D).
    { apply Qle_trans with (2 * 2 ^ (a - b) * D).
      - apply Qmult_le_l; [lra|]. exact Q1.
      - apply Qmult_le_r; [exact HD | exact C]. }
    lra.
  - assert (E' : x < 2 ^ (a - b)).
    { apply Qnot_le_lt. intros C. apply Qle_bool_iff in C. congruence. }
    replace (a - b - 1 + 1)%Z with (a - b)%Z by lia. split; [|exact E'].
    rewrite pow2_pred.
    apply Qnot_lt_le. intros C.
    (* x < 2^(a-b)/2  ->  x * D < 2^(a-b)/2 * 2 * 2^b = 2^a <= P *)
    assert (x * D < 2 ^ (a - b) / 2 * (2 * 2 ^ b)).
    { apply Qlt_le_trans with (2 ^ (a - b) / 2 * D).
      - apply Qmult_lt_r; [exact HD | exact C].
      - apply Qmult_le_l; [lra | lra]. }
    assert (2 ^ (a - b) / 2 * (2 * 2 ^ b) == 2 ^ a) by (rewrite Ea; field).
    lra.
Qed.



Lemma nearestEven_near (y : Q) :
  inject_Z (nearestEven y) - (1 # 2) <= y /\ y <= inject_Z (nearestEven y) + (1 # 2).
Proof.
  unfold nearestEven.
  pose proof (Qfloor_le y) as F1. pose proof (Qlt_floor y) as F2.
  rewrite inject_Z_plus in F2. change (inject_Z 1) with 1 in F2.
  destruct (Qcompare (y - inject_Z (Qfloor y)) (1 # 2)) eqn:C.
  - apply Qeq_alt in C. destruct (Z.even (Qfloor y)).
    + lra.
    + rewrite inject_Z_plus. change (inject_Z 1) with 1. lra.
  - apply Qlt_alt in C. lra.
  - apply Qgt_alt in C. rewrite inject_Z_plus. change (inject_Z 1) with 1. lra.
Qed.





(** The relative error of rounding is at most [u]. *)
Lemma round53_error (x : Q) :
  0 < x -> x * (1 - u) <= round53 x /\ round53 x <= x * (1 + u).
Proof.
  intros Hx. unfold round53, u.
  destruct (ilog2_spec x Hx) as [S1 S2].
  set (k := ilog2 x) in *. set (e := (k - 52)%Z).
  pose proof (pow2_pos e) as He.
  pose proof (nearestEven_near (x / 2 ^ e)) as [N1 N2].
  set (m := inject_Z (nearestEven (x / 2 ^ e))) in *.
  assert (Ek : 2 ^ k == 2 ^ e * 2 ^ 52).
  { unfold e. rewrite <- Qpower_plus by discriminate.
    replace (k - 52 + 52)%Z with k by lia. reflexivity. }
  assert (Eu : 2 ^ (-53) * 2 ^ 52 == 1 # 2) by reflexivity.
  assert (Hy : x == (x / 2 ^ e) * 2 ^ e) by (field; lra).
  set (y := x / 2 ^ e) in *.
  (* |m - y| <= 1/2, so |m 2^e - x| <= 2^e / 2 <= x 2^-53 *)
  assert (Hhalf : 2 ^ e * (1 # 2) <= x * 2 ^ (-53)).
  { assert (2 ^ e * (2 ^ (-53) * 2 ^ 52) <= x * 2 ^ (-53)).
    { assert (2 ^ e * 2 ^ 52 * 2 ^ (-53) <= x * 2 ^ (-53)).
      { apply Qmult_le_r; [apply pow2_pos|]. rewrite <- Ek. exact S1. }
      lra. }
    rewrite Eu in H. exact H. }
  assert (A1 : (y - (1 # 2)) * 2 ^ e <= m * 2 ^ e)
    by (apply Qmult_le_r; [exact He | lra]).
  assert (A2 : m * 2 ^ e <= (y + (1 # 2)) * 2 ^ e)
    by (apply Qmult_le_r; [exact He | lra]).
  split; lra.
Qed.

Lemma round53_pos (x : Q) : 0 < x -> 0 < round53 x.
Proof.
  intros Hx. destruct (round53_error x Hx) as [H _].
  assert (0 < x * (1 - u)); [|lra].
  apply Qmult_lt_0_compat; [exact Hx|]. reflexivity.
Qed.




End DoubleFacts.

(** ** Shader selection *)

Module ShadersFacts.
Import Double DoubleFacts Shaders.
Local Open Scope Z_scope.

Lemma shaderCount_nonneg sm : 0 <= shaderCount sm.
Proof. unfold shaderCount. lia. Qed.

Lemma shaderCount_zero sm : shaderCount sm = 0 <-> shaders sm = [].
Proof.
  unfold shaderCount. destruct (shaders sm); cbn; split; intros; try lia; congruence.
Qed.

Lemma shaderAt_in_range sm i :
  0 <= i < shaderCount sm -> exists n, shaderAt sm i = Some n.
Proof.
  intros [H0 H1]. unfold shaderAt.
  destruct (Z.ltb_spec i 0); [lia|].
  apply lookup_lt_is_Some_2. unfold shaderCount in H1. lia.
Qed.

Lemma getCurrentShader_in_range sm :
  indexInRange sm ->
  exists n, shaderAt sm (currentIndex sm) = Some n /\
            getCurrentShader sm = Some (mkShader (Some n) (loadedShaders sm !! n)).
Proof.
  intros H. destruct (shaderAt_in_range sm _ H) as [n Hn].
  exists n. split; [exact Hn|].
  unfold getCurrentShader, indexInRange in *.
  destruct (Z.eqb_spec (shaderCount sm) 0); [lia|].
  rewrite Hn. reflexivity.
Qed.

Lemma nextShader_in_range sm :
  indexInRange sm -> indexInRange (snd (nextShader sm)).
Proof.
  unfold indexInRange, nextShader, shaderCount, withIndex. intros H.
  destruct (Z.eqb_spec (Z.of_nat (List.length (shaders sm))) 0); [lia|].
  cbn [snd currentIndex shaders].
  rewrite Z.rem_mod_nonneg by lia.
  apply Z.mod_pos_bound. lia.
Qed.

Lemma previousShader_in_range sm :
  indexInRange sm -> indexInRange (snd (previousShader sm)).
Proof.
  unfold indexInRange, previousShader, shaderCount, withIndex. intros H.
  destruct (Z.eqb_spec (Z.of_nat (List.length (shaders sm))) 0); [lia|].
  cbn [snd currentIndex shaders].
  rewrite Z.rem_mod_nonneg by lia.
  apply Z.mod_pos_bound. lia.
Qed.

Lemma setShaderByIndex_in_range i sm :
  indexInRange sm -> indexInRange (snd (setShaderByIndex i sm)).
Proof.
  unfold indexInRange, setShaderByIndex, shaderCount, withIndex. intros H.
  destruct (Z.leb_spec 0 i);
    destruct (Z.ltb_spec i (Z.of_nat (List.length (shaders sm))));
    cbn [andb snd currentIndex shaders]; lia.
Qed.

Lemma runManagerOp_shaders sm op :
  shaders (runManagerOp sm op) = shaders sm /\
  loadedShaders (runManagerOp sm op) = loadedShaders sm.
Proof.
  destruct op; cbn [runManagerOp];
    unfold nextShader, previousShader, setShaderByIndex;
    repeat match goal with |- context [if ?b then _ else _] => destruct b end;
    split; reflexivity.
Qed.

Lemma runManagerOp_in_range sm op :
  indexInRange sm -> indexInRange (runManagerOp sm op).
Proof.
  destruct op; cbn [runManagerOp].
  - apply nextShader_in_range.
  - apply previousShader_in_range.
  - apply setShaderByIndex_in_range.
Qed.

Lemma runManagerOps_in_range ops : forall sm,
  indexInRange sm ->
  indexInRange (fold_left runManagerOp ops sm) /\
  shaders (fold_left runManagerOp ops sm) = shaders sm.
Proof.
  induction ops as [| op ops IH]; intros sm H; cbn [fold_left].
  - split; [exact H | reflexivity].
  - destruct (IH (runManagerOp sm op) (runManagerOp_in_range sm op H)) as [H1 H2].
    split; [exact H1|]. rewrite H2. apply runManagerOp_shaders.
Qed.

Lemma empty_manager_op sm op :
  shaders sm = [] -> resultOf sm op = None /\ runManagerOp sm op = sm.
Proof.
  intros E. apply shaderCount_zero in E.
  destruct op; cbn [resultOf runManagerOp];
    unfold nextShader, previousShader, setShaderByIndex; rewrite E; cbn.
  - split; reflexivity.
  - split; reflexivity.
  - destruct (Z.leb_spec 0 index); destruct (Z.ltb_spec index 0);
      cbn [andb fst snd]; try lia; split; reflexivity.
Qed.

(** The index in binary64.  An array has fewer than [2 ^ 32] elements. *)
Section NoteIndex.
Local Open Scope Q_scope.




End NoteIndex.

Example shaderIndexOf_note_126 : shaderIndexOf (inject_Z 126) 10 = 9.
Proof. vm_compute. reflexivity. Qed.

Example shaderIndexOf_note_127 : shaderIndexOf (inject_Z 127) 10 = 10.
Proof. vm_compute. reflexivity. Qed.

(** On the machine's binary64 numbers the product is the one [binary64]
    gives: for every note and every list of up to 128 shaders, and for the
    lists of 381, 635, 762 and 889 shaders. *)
Lemma binary64_as_on_the_machine :
  sameAsDouble (seq 1 128 ++ [381; 635; 762; 889]%nat) = true.
Proof. vm_compute. reflexivity. Qed.





Lemma empty_manager_ops ops : forall sm,
  shaders sm = [] -> fold_left runManagerOp ops sm = sm.
Proof.
  induction ops as [| op ops IH]; intros sm E; cbn [fold_left]; [reflexivity|].
  destruct (empty_manager_op sm op E) as [_ ->]. apply IH, E.
Qed.

(** C9.  On a list of shaders that is not empty, after every run of
    [nextShader], [previousShader] and [setShaderByIndex] the index satisfies
    [0 <= currentIndex < shaders.length] and [getCurrentShader] names a
    shader of the list; on an empty list each of the three returns [null]
    and [currentIndex] stays 0. *)
Theorem currentIndex_invariant (names : list string)
    (contents : gmap string string) (ops : list ManagerOp) :
  let sm := fold_left runManagerOp ops (newManager names contents) in
  (names <> [] ->
   indexInRange sm /\ shaders sm = names /\
   exists name,
     shaders sm !! Z.to_nat (currentIndex sm) = Some name /\
     getCurrentShader sm =
       Some (mkShader (Some name) (loadedShaders sm !! name))) /\
  (names = [] ->
   currentIndex sm = 0 /\
   forall op, resultOf sm op = None /\
              currentIndex (runManagerOp sm op) = currentIndex sm).
Proof.
  intros sm. split.
  - intros Hne.
    assert (H0 : indexInRange (newManager names contents)).
    { unfold indexInRange, newManager, shaderCount. cbn [currentIndex shaders].
      destruct names; [contradiction | cbn; lia]. }
    destruct (runManagerOps_in_range ops _ H0) as [Hin Hsh]. fold sm in Hin, Hsh.
    split; [exact Hin|]. split; [exact Hsh|].
    destruct (getCurrentShader_in_range sm Hin) as (name & Hname & Hcur).
    exists name. split; [|exact Hcur].
    unfold shaderAt in Hname. unfold indexInRange in Hin.
    destruct (Z.ltb_spec (currentIndex sm) 0); [lia | exact Hname].
  - intros ->.
    assert (E : sm = newManager [] contents)
      by (apply empty_manager_ops; reflexivity).
    rewrite E. split; [reflexivity|].
    intros op. destruct (empty_manager_op (newManager [] contents) op eq_refl) as [Hr Hs].
    split; [exact Hr | rewrite Hs; reflexivity].
Qed.

(** On three shaders: note 64 selects the second one, note 127 none. *)
Example note_64_selects :
  currentIndex (shaderManager (handleNoteOn 64 demoApp)) = 1 /\
  (loaded (handleNoteOn 64 demoApp) ≫= name) = Some "b.glsl".
Proof. split; vm_compute; reflexivity. Qed.

Example note_127_keeps :
  currentIndex (shaderManager (handleNoteOn 127 demoApp)) = 0 /\
  (loaded (handleNoteOn 127 demoApp) ≫= name) = Some "a.glsl".
Proof. split; vm_compute; reflexivity. Qed.


End ShadersFacts.

(** ** Camera start-up *)

Module VideoFacts.
Import Video.

Lemma sameSession_refl vm : sameSession vm vm.
Proof. repeat split. Qed.

Lemma updateCameraSelector_session vm : sameSession vm (updateCameraSelector vm).
Proof.
  unfold updateCameraSelector. destruct (cameraSelector vm); repeat split.
Qed.

Lemma updateDeviceList_session b vm : sameSession vm (updateDeviceList b vm).
Proof.
  unfold updateDeviceList.
  destruct (getUserMedia b (mediaRequests vm) probeConstraints);
    destruct (enumerateDevices b _);
    match goal with
    | |- sameSession _ (updateCameraSelector ?x) =>
        pose proof (updateCameraSelector_session x) as H
    end;
    unfold sameSession in *; cbn in *; exact H.
Qed.

Lemma resetCamera_disabled error vm : cameraDisabled (resetCamera error vm).
Proof.
  unfold cameraDisabled, resetCamera, selectValue.
  destruct (cameraSelector (alert (cameraAlert error) vm)) as [sel0 |] eqn:E;
    cbn [currentDeviceId currentSource cameraSelector set_currentSource
         set_currentDeviceId set_cameraSelector].
  - repeat split. intros sel [= <-]. reflexivity.
  - repeat split. intros sel Hs. rewrite E in Hs. discriminate Hs.
Qed.

Lemma resetCamera_session error vm :
  delivered (resetCamera error vm) = delivered vm /\
  stream (resetCamera error vm) = stream vm /\
  videoElement (resetCamera error vm) = videoElement vm /\
  videoTexture (resetCamera error vm) = videoTexture vm /\
  availableDevices (resetCamera error vm) = availableDevices vm /\
  alerts (resetCamera error vm) = alerts vm ++ [cameraAlert error].
Proof.
  unfold resetCamera, selectValue. cbn.
  destruct (cameraSelector vm); cbn; repeat split.
Qed.

Lemma resetCamera_requests error vm :
  mediaRequests (resetCamera error vm) = mediaRequests vm.
Proof.
  unfold resetCamera, selectValue.
  destruct (cameraSelector (alert (cameraAlert error) vm)); reflexivity.
Qed.

Lemma updateCameraSelector_requests vm :
  mediaRequests (updateCameraSelector vm) = mediaRequests vm.
Proof. unfold updateCameraSelector. destruct (cameraSelector vm); reflexivity. Qed.

Lemma updateDeviceList_requests b vm :
  mediaRequests (updateDeviceList b vm) = S (mediaRequests vm).
Proof.
  unfold updateDeviceList.
  destruct (getUserMedia b (mediaRequests vm) probeConstraints);
    destruct (enumerateDevices b _);
    rewrite updateCameraSelector_requests; reflexivity.
Qed.

Lemma rejected_startWebcam_unfolds b deviceId vm error :
  getUserMedia b (mediaRequests vm) (cameraConstraints deviceId)
    = Rejected error ->
  startWebcam b deviceId vm =
  resetCamera error
    (if isNotFound error then updateDeviceList b (countMediaRequest vm)
     else countMediaRequest vm).
Proof. intros H. unfold startWebcam. cbv zeta. rewrite H. reflexivity. Qed.

(** C7 as stated does not hold.  The reset is not all that happens on a
    rejection: with [NotFoundError] the device list is refreshed first,
    which asks the browser for the camera a second time and can change
    [availableDevices]. *)
Lemma startWebcam_refreshes_devices :
  getUserMedia browserWithoutCamera (mediaRequests freshManager)
    (cameraConstraints None) = Rejected notFound /\
  availableDevices (startWebcam browserWithoutCamera None freshManager)
    = [lateCamera] /\
  availableDevices (resetCamera notFound (countMediaRequest freshManager)) = [] /\
  mediaRequests (startWebcam browserWithoutCamera None freshManager) = 2%nat /\
  ~ onlyResetOnRejection.
Proof.
  split; [reflexivity|]. split; [reflexivity|]. split; [reflexivity|].
  split; [reflexivity|].
  intros H.
  specialize (H browserWithoutCamera None freshManager notFound eq_refl).
  apply (f_equal availableDevices) in H. cbv in H. discriminate H.
Qed.

(** C7, amended.  If [getUserMedia] rejects the request of [startWebcam],
    the manager ends in the disabled state ([currentDeviceId] null,
    [currentSource] 'none', the selector, when there is one, on 'none'), no
    texture is handed to the renderer, stream, video element and texture are
    as before, and one alert is shown.  What happens is the reset, after a
    refresh of the device list when the error is [NotFoundError] or
    [DevicesNotFoundError]; the refresh asks for the camera once more, the
    failed request itself is not repeated. *)
Theorem startWebcam_rejected (b : Browser) (deviceId : option string)
    (vm : VideoInputManager) (error : DOMError) :
  getUserMedia b (mediaRequests vm) (cameraConstraints deviceId)
    = Rejected error ->
  let vm' := startWebcam b deviceId vm in
  cameraDisabled vm' /\
  delivered vm' = delivered vm /\
  stream vm' = stream vm /\ videoElement vm' = videoElement vm /\
  videoTexture vm' = videoTexture vm /\
  alerts vm' = alerts vm ++ [cameraAlert error] /\
  vm' = resetCamera error
          (if isNotFound error then updateDeviceList b (countMediaRequest vm)
           else countMediaRequest vm) /\
  (isNotFound error = false -> mediaRequests vm' = S (mediaRequests vm)) /\
  (isNotFound error = true -> mediaRequests vm' = S (S (mediaRequests vm))).
Proof.
  intros H vm'. unfold vm'.
  rewrite (rejected_startWebcam_unfolds b deviceId vm error H).
  set (mid := if isNotFound error then _ else _).
  assert (Hmid : sameSession (countMediaRequest vm) mid).
  { unfold mid. destruct (isNotFound error);
      [apply updateDeviceList_session | apply sameSession_refl]. }
  destruct Hmid as (He & Ht & Hs & _ & _ & _ & Hd & Ha).
  destruct (resetCamera_session error mid) as (Rd & Rs & Re & Rt & _ & Ra).
  split; [apply resetCamera_disabled|].
  split; [rewrite Rd, Hd; reflexivity|].
  split; [rewrite Rs, Hs; reflexivity|].
  split; [rewrite Re, He; reflexivity|].
  split; [rewrite Rt, Ht; reflexivity|].
  split; [rewrite Ra, Ha; reflexivity|].
  split; [reflexivity|].
  rewrite resetCamera_requests.
  split; intros Hn; unfold mid; rewrite Hn.
  - reflexivity.
  - rewrite updateDeviceList_requests. reflexivity.
Qed.

Lemma startWebcam_rejected_witness :
  getUserMedia browserWithoutCamera (mediaRequests freshManager)
    (cameraConstraints None) = Rejected notFound /\
  cameraDisabled (startWebcam browserWithoutCamera None freshManager).
Proof.
  assert (H : getUserMedia browserWithoutCamera (mediaRequests freshManager)
                (cameraConstraints None) = Rejected notFound) by reflexivity.
  split; [exact H|].
  exact (proj1 (startWebcam_rejected browserWithoutCamera None freshManager
                  notFound H)).
Defined.

End VideoFacts.
